(** * PCVDepositAggregator: a shallow embedding and its properties

    The contract [PCVDepositAggregator] (Solidity ^0.8.4) spreads one ERC-20
    token over a set of registered PCV deposits according to weights, and
    keeps a buffer in the aggregator itself.

    Conventions of the embedding:
    - [uint256] values are [N]; every checked operation of Solidity 0.8 is
      written out and reverts with [Panic] when it leaves the range;
    - [int256] values are [Z], with SafeCast's conversions between the two;
    - a call either returns a value or reverts: [result];
    - storage, the token ledger and the trace of external calls are one
      record [State], passed explicitly; a revert returns no state, which is
      the all-or-nothing behaviour of a transaction;
    - [emit] statements are not modelled. *)

From Stdlib Require Import NArith ZArith Lia.
From stdpp Require Import base numbers gmap option list.

Local Open Scope N_scope.

(** ** Errors and the result monad *)

Inductive error : Type :=
  | LengthMismatch                  (* "Addresses and weights are not the same length!" *)
  | NullRewardsAssetManager         (* "Rewards asset manager cannot be null" *)
  | DuplicateDeposit                (* "Deposit already added." *)
  | UnknownDeposit                  (* "Deposit does not exist." *)
  | NoRebalanceNeeded               (* "No rebalance needed." *)
  | InsufficientAggregatorLiquidity (* "Cannot rebalance this deposit, please rebalance another one first." *)
  | InsufficientTotalBalance        (* "Not enough balance to withdraw" *)
  | Unauthorized                    (* onlyGovernorOrAdmin, onlyPCVController *)
  | ContractPaused                  (* whenNotPaused *)
  | TransferExceedsBalance          (* the ERC-20 token refuses the transfer *)
  | CastOverflow                    (* SafeCast.toInt256, SafeCast.toUint256 *)
  | InvalidArgument                 (* the ABI decoder refuses a value outside its type *)
  | Panic (code : N).               (* 0x11 arithmetic, 0x12 division by zero, 0x32 index *)

Inductive result (A : Type) : Type :=
  | Ok (a : A)
  | Revert (e : error).
Arguments Ok {A} a.
Arguments Revert {A} e.

Global Instance result_ret : MRet result := λ A a, Ok a.
Global Instance result_bind : MBind result := λ A B f m,
  match m with
  | Ok a => f a
  | Revert e => Revert e
  end.

Definition require (b : bool) (e : error) : result unit :=
  if b then Ok tt else Revert e.

(** [for (uint256 i = start; i < start + n; i++) body] over a threaded state. *)
Fixpoint for_loop {St : Type} (body : nat → St → result St) (start n : nat)
    (s : St) : result St :=
  match n with
  | O => Ok s
  | S n' => s' ← body start s; for_loop body (S start) n' s'
  end.

(** [arr = new T[](n); for (i = 0; i < n; i++) arr[i] = f(i)]. *)
Definition tabulate {A : Type} (f : nat → result A) (n : nat) : result (list A) :=
  mapM f (seq 0 n).

(** [arr[i]] on a memory array: out of range is Panic(0x32). *)
Definition idx {A : Type} (arr : list A) (i : nat) : result A :=
  match arr !! i with
  | Some x => Ok x
  | None => Revert (Panic 0x32)
  end.

(** ** Checked arithmetic of Solidity 0.8 and SafeCast *)

Definition MAX_UINT256 : N := Eval vm_compute in 2 ^ 256 - 1.
Definition MAX_UINT128 : N := Eval vm_compute in 2 ^ 128 - 1.
Definition MAX_INT256 : Z := Eval vm_compute in (2 ^ 255 - 1)%Z.
Definition MIN_INT256 : Z := Eval vm_compute in (- 2 ^ 255)%Z.

Definition add (a b : N) : result N :=
  if a + b <=? MAX_UINT256 then Ok (a + b) else Revert (Panic 0x11).

Definition sub (a b : N) : result N :=
  if b <=? a then Ok (a - b) else Revert (Panic 0x11).

Definition mul (a b : N) : result N :=
  if a * b <=? MAX_UINT256 then Ok (a * b) else Revert (Panic 0x11).

Definition div (a b : N) : result N :=
  if b =? 0 then Revert (Panic 0x12) else Ok (a / b).

Definition in_int256 (z : Z) : bool :=
  ((MIN_INT256 <=? z) && (z <=? MAX_INT256))%Z.

Definition iadd (a b : Z) : result Z :=
  if in_int256 (a + b) then Ok (a + b)%Z else Revert (Panic 0x11).

Definition isub (a b : Z) : result Z :=
  if in_int256 (a - b) then Ok (a - b)%Z else Revert (Panic 0x11).

Definition imul (a b : Z) : result Z :=
  if in_int256 (a * b) then Ok (a * b)%Z else Revert (Panic 0x11).

(** SafeCast: [require(value <= uint256(type(int256).max))]. *)
Definition toInt256 (x : N) : result Z :=
  if (Z.of_N x <=? MAX_INT256)%Z then Ok (Z.of_N x) else Revert CastOverflow.

(** SafeCast: [require(value >= 0)]. *)
Definition toUint256 (z : Z) : result N :=
  if (0 <=? z)%Z then Ok (Z.to_N z) else Revert CastOverflow.

(** ** Library pieces the contract uses *)

Definition address : Type := N.

Module EnumerableSet.
(** OpenZeppelin's AddressSet keeps its members in an array [_values];
    [add] appends, [remove] moves the last member into the freed slot and
    pops. *)
Definition contains (set : list address) (a : address) : bool :=
  bool_decide (a ∈ set).

Definition add (set : list address) (a : address) : list address :=
  if contains set a then set else set ++ [a].

(** [valueIndex = _indexes[value]]; when the value is a member, the last
    member is written over it and the array is popped. *)
Definition remove (set : list address) (a : address) : list address :=
  match list_find (λ x, x = a) set with
  | Some (i, _) =>
      let lastIndex := (length set - 1)%nat in
      match set !! lastIndex with
      | Some lastValue => take lastIndex (<[i := lastValue]> set)
      | None => set
      end
  | None => set
  end.

Definition at_ (set : list address) (i : nat) : result address :=
  idx set i.
End EnumerableSet.

Module UintArrayOps.
(** Modelled from the spec: contracts/libs/UintArrayOps.sol is not among the
    sources. The running sum of [sum], in checked [uint256] addition. *)
Fixpoint sum_from (acc : N) (arr : list N) : result N :=
  match arr with
  | [] => Ok acc
  | x :: rest => acc' ← add acc x; sum_from acc' rest
  end.

(** Modelled from the spec: contracts/libs/UintArrayOps.sol is not among the
    sources. [sum] is the "sum" of the balance snapshot. *)
Definition sum (arr : list N) : result N := sum_from 0 arr.

(** Modelled from the spec: contracts/libs/UintArrayOps.sol is not among the
    sources. [positiveDifference] is the entrywise [max(0, a[i] - b[i])] of
    the spec's "needed amount per under-target deposit". *)
Definition positiveDifference (a b : list N) : result (list N) :=
  _ ← require (length a =? length b)%nat LengthMismatch;
  Ok (zip_with (λ x y, if y <? x then x - y else 0) a b).
End UintArrayOps.

Module Decimal.
(** Modelled from the spec: contracts/external/Decimal.sol is not among the
    sources. The spec gives the composite
    [ratio(s, t).mul(x).asUint256() = s * x / t]; a decimal is kept as an
    exact fraction so that the composite is this quotient. *)
Record D256 : Type := { num : N; den : N }.

(** Modelled from the spec: the scalar [surplus / totalAmountNeeded]. *)
Definition ratio (a b : N) : result D256 :=
  if b =? 0 then Revert (Panic 0x12) else Ok {| num := a; den := b |}.

(** Modelled from the spec: the scalar times [amountNeeded(i)]. *)
Definition mul (d : D256) (x : N) : result D256 :=
  n ← mul (num d) x; Ok {| num := n; den := den d |}.

(** Modelled from the spec: the integer part,
    [surplus * amountNeeded(i) / totalAmountNeeded]. *)
Definition asUint256 (d : D256) : result N := div (num d) (den d).
End Decimal.

(** ** State *)

(** The state-changing external calls the aggregator makes, in the order it
    makes them. The views [balance()] and [balanceOf] are reads of the
    ledger and leave no entry. *)
Inductive call : Type :=
  | TokenTransfer (to : address) (amount : N)        (* IERC20(token).transfer from the aggregator *)
  | DepositWithdraw (dep to : address) (amount : N)  (* IPCVDeposit(dep).withdraw(to, amount) *)
  | DepositDeposit (dep : address).                  (* IPCVDeposit(dep).deposit() *)

Record State : Type := mkState {
  this : address;                           (* address(this) *)
  paused : bool;
  governorsOrAdmins : gset address;
  pcvControllers : gset address;
  pcvDepositAddresses : list address;       (* EnumerableSet.AddressSet *)
  pcvDepositWeights : gmap address N;       (* mapping(address => uint256) *)
  bufferWeight : N;
  totalWeight : N;
  token : address;
  rewardsAssetManager : address;
  ledger : gmap address N;                  (* the token's balanceOf *)
  calls : list call
}.

Definition set_registry (addrs : list address) (ws : gmap address N) (tw : N)
    (s : State) : State :=
  mkState (this s) (paused s) (governorsOrAdmins s) (pcvControllers s)
    addrs ws (bufferWeight s) tw (token s) (rewardsAssetManager s)
    (ledger s) (calls s).

Definition set_buffer (bw tw : N) (s : State) : State :=
  mkState (this s) (paused s) (governorsOrAdmins s) (pcvControllers s)
    (pcvDepositAddresses s) (pcvDepositWeights s) bw tw (token s)
    (rewardsAssetManager s) (ledger s) (calls s).

Definition with_ledger (l : gmap address N) (cs : list call) (s : State) : State :=
  mkState (this s) (paused s) (governorsOrAdmins s) (pcvControllers s)
    (pcvDepositAddresses s) (pcvDepositWeights s) (bufferWeight s)
    (totalWeight s) (token s) (rewardsAssetManager s) l cs.

(** An external call leaves the ledger [l] and is appended to the trace. *)
Definition set_ledger (l : gmap address N) (c : call) (s : State) : State :=
  with_ledger l (calls s ++ [c]) s.

Definition weightOf (s : State) (a : address) : N :=
  default 0 (pcvDepositWeights s !! a).

(** A mapping reads 0 where nothing was written. *)
Definition bal (l : gmap address N) (a : address) : N := default 0 (l !! a).

Definition balanceOf (s : State) (a : address) : N := bal (ledger s) a.

(** ** Collaborators *)

(** Modelled from the spec: CoreRef's modifiers are not among the sources;
    the access-control gate is a boolean check on the caller. *)
Definition onlyGovernorOrAdmin (sender : address) (s : State) : result unit :=
  require (bool_decide (sender ∈ governorsOrAdmins s)) Unauthorized.

(** Modelled from the spec: the gate in front of [withdraw]. *)
Definition onlyPCVController (sender : address) (s : State) : result unit :=
  require (bool_decide (sender ∈ pcvControllers s)) Unauthorized.

(** Modelled from the spec: CoreRef's [_setContractAdminRole] is not among
    the sources. Naming a role the contract's admin role lets the holders of
    that role pass [onlyGovernorOrAdmin] beside the governors; the role is
    given by the set of its holders. *)
Definition _setContractAdminRole (holders : gset address) (s : State) : State :=
  mkState (this s) (paused s) (governorsOrAdmins s ∪ holders) (pcvControllers s)
    (pcvDepositAddresses s) (pcvDepositWeights s) (bufferWeight s)
    (totalWeight s) (token s) (rewardsAssetManager s) (ledger s) (calls s).

(** Modelled from the spec: CoreRef's pause switch is not among the
    sources; a paused contract refuses the call. *)
Definition whenNotPaused (s : State) : result unit :=
  require (negb (paused s)) ContractPaused.

(** The token moves [amount] from [from] to [to], or refuses. *)
Definition move (from to : address) (amount : N) (l : gmap address N)
    : result (gmap address N) :=
  if bal l from <? amount then Revert TransferExceedsBalance
  else
    let l1 := <[from := bal l from - amount]> l in
    Ok (<[to := bal l1 to + amount]> l1).

(** [IERC20(token).safeTransfer(to, amount)] and [.transfer(to, amount)],
    sent by the aggregator. *)
Definition safeTransfer (to : address) (amount : N) (s : State) : result State :=
  l ← move (this s) to amount (ledger s);
  Ok (set_ledger l (TokenTransfer to amount) s).

(** Modelled from the spec: the PCV deposits are external contracts behind
    the interface [balance()], [deposit()], [withdraw(to, amount)]. A deposit
    holds its tokens at its own address: [balance()] reads them, [deposit()]
    takes what was transferred to it into account, and [withdraw] transfers
    the requested amount out, or reverts when it holds less. *)
Definition pcvBalance (s : State) (dep : address) : N := balanceOf s dep.

(** Modelled from the spec: [deposit()] of the PCV Deposit interface; the
    tokens already sit at the deposit's address. *)
Definition pcvDeposit (dep : address) (s : State) : result State :=
  Ok (set_ledger (ledger s) (DepositDeposit dep) s).

(** Modelled from the spec: [withdraw(to, amount)] of the PCV Deposit
    interface, "transfer amount out to [to]". *)
Definition pcvWithdraw (dep to : address) (amount : N) (s : State) : result State :=
  l ← move dep to amount (ledger s);
  Ok (set_ledger l (DepositWithdraw dep to amount) s).

(** ** The contract *)

(** *** View functions *)

Definition hasPCVDeposit (s : State) (pcvDeposit : address) : bool :=
  EnumerableSet.contains (pcvDepositAddresses s) pcvDeposit.

Definition balance (s : State) : N := balanceOf s (this s).

Definition _getUnderlyingBalances (s : State) : result (list N) :=
  tabulate
    (λ i, a ← EnumerableSet.at_ (pcvDepositAddresses s) i; Ok (pcvBalance s a))
    (length (pcvDepositAddresses s)).

Definition _getUnderlyingBalancesAndSum (s : State) : result (N * N * list N) :=
  underlyingBalances ← _getUnderlyingBalances s;
  depositSum ← UintArrayOps.sum underlyingBalances;
  Ok (balance s, depositSum, underlyingBalances).

Definition getTotalBalance (s : State) : result N :=
  underlyingBalances ← _getUnderlyingBalances s;
  underlyingSum ← UintArrayOps.sum underlyingBalances;
  add underlyingSum (balance s).

Definition amountFromTarget (s : State) (pcvDeposit : address) : result Z :=
  totalBalance ← getTotalBalance s;
  let pcvDepositBalance := pcvBalance s pcvDeposit in
  let pcvDepositWeight := weightOf s pcvDeposit in
  product ← mul pcvDepositWeight totalBalance;
  idealDepositBalance ← div product (totalWeight s);
  actual ← toInt256 pcvDepositBalance;
  ideal ← toInt256 idealDepositBalance;
  isub actual ideal.

Definition getAllAmountsFromTargets (s : State) : result (list Z) :=
  '(aggregatorBalance, underlyingSum, underlyingBalances) ←
    _getUnderlyingBalancesAndSum s;
  totalBalance ← add aggregatorBalance underlyingSum;
  tabulate
    (λ i,
      a ← EnumerableSet.at_ (pcvDepositAddresses s) i;
      product ← mul totalBalance (weightOf s a);
      idealAmount ← div product (totalWeight s);
      ideal ← toInt256 idealAmount;
      underlying ← idx underlyingBalances i;
      actual ← toInt256 underlying;
      isub ideal actual)
    (length (pcvDepositAddresses s)).

Definition _getOptimalUnderlyingBalances (s : State) (totalBalance : N)
    : result (list N) :=
  tabulate
    (λ i,
      a ← EnumerableSet.at_ (pcvDepositAddresses s) i;
      product ← mul (weightOf s a) totalBalance;
      div product (totalWeight s))
    (length (pcvDepositAddresses s)).

Definition pcvDeposits (s : State) : result (list address * list N) :=
  deposits ← tabulate (λ i, EnumerableSet.at_ (pcvDepositAddresses s) i)
                (length (pcvDepositAddresses s));
  weights ← tabulate
              (λ i, a ← EnumerableSet.at_ (pcvDepositAddresses s) i;
                    Ok (weightOf s a))
              (length (pcvDepositAddresses s));
  Ok (deposits, weights).

Definition resistantBalanceAndFei (s : State) : N * N := (balance s, 0).

Definition balanceReportedIn (s : State) : address := token s.

(** *** Internal functions *)

Definition _depositToUnderlying (to : address) (amount : N) (s : State)
    : result State :=
  s1 ← safeTransfer to amount s;
  pcvDeposit to s1.

Definition _rebalanceSingle (pcvDeposit_ : address) (s : State) : result State :=
  _ ← require (EnumerableSet.contains (pcvDepositAddresses s) pcvDeposit_)
        UnknownDeposit;
  distanceToTarget ← amountFromTarget s pcvDeposit_;
  _ ← require (negb (distanceToTarget =? 0)%Z) NoRebalanceNeeded;
  _ ← (if (distanceToTarget <? 0)%Z then
         negated ← imul (-1) distanceToTarget;
         needed ← toUint256 negated;
         require (negb (balance s <? needed)) InsufficientAggregatorLiquidity
       else Ok tt);
  if (0 <? distanceToTarget)%Z then
    amount ← toUint256 distanceToTarget;
    pcvWithdraw pcvDeposit_ (this s) amount s
  else
    negated ← imul (-1) distanceToTarget;
    amount ← toUint256 negated;
    s1 ← safeTransfer pcvDeposit_ amount s;
    pcvDeposit pcvDeposit_ s1.

(** The first loop of [_rebalance], "Do withdraws first". *)
Definition _rebalance_withdraws (distancesToTargets : list Z) (s : State)
    : result State :=
  for_loop
    (λ i st,
      d ← idx distancesToTargets i;
      if (d <? 0)%Z then
        a ← EnumerableSet.at_ (pcvDepositAddresses st) i;
        negated ← imul (-1) d;
        amount ← toUint256 negated;
        pcvWithdraw a (this st) amount st
      else Ok st)
    0 (length distancesToTargets) s.

(** The second loop of [_rebalance], "Do deposits next". *)
Definition _rebalance_deposits (distancesToTargets : list Z) (s : State)
    : result State :=
  for_loop
    (λ i st,
      d ← idx distancesToTargets i;
      if (0 <? d)%Z then
        a ← EnumerableSet.at_ (pcvDepositAddresses st) i;
        amount ← toUint256 d;
        st1 ← safeTransfer a amount st;
        a' ← EnumerableSet.at_ (pcvDepositAddresses st1) i;
        pcvDeposit a' st1
      else Ok st)
    0 (length distancesToTargets) s.

Definition _rebalance (s : State) : result State :=
  '(aggregatorBalance, totalUnderlyingBalance, _) ←
    _getUnderlyingBalancesAndSum s;
  totalBalance ← add totalUnderlyingBalance aggregatorBalance;
  distancesToTargets ← getAllAmountsFromTargets s;
  s1 ← _rebalance_withdraws distancesToTargets s;
  _rebalance_deposits distancesToTargets s1.

Definition _addPCVDeposit (depositAddress : address) (weight : N) (s : State)
    : result State :=
  _ ← require (negb (EnumerableSet.contains (pcvDepositAddresses s) depositAddress))
        DuplicateDeposit;
  let addrs := EnumerableSet.add (pcvDepositAddresses s) depositAddress in
  let ws := <[depositAddress := weight]> (pcvDepositWeights s) in
  tw ← add (totalWeight s) weight;
  Ok (set_registry addrs ws tw s).

Definition _removePCVDeposit (depositAddress : address) (s : State)
    : result State :=
  _ ← require (EnumerableSet.contains (pcvDepositAddresses s) depositAddress)
        UnknownDeposit;
  if (weightOf s depositAddress =? 0) && (pcvBalance s depositAddress =? 0) then
    Ok (set_registry (EnumerableSet.remove (pcvDepositAddresses s) depositAddress)
          (pcvDepositWeights s) (totalWeight s) s)
  else
    tw ← sub (totalWeight s) (weightOf s depositAddress);
    let s1 := set_registry (pcvDepositAddresses s)
                (<[depositAddress := 0]> (pcvDepositWeights s)) tw s in
    s2 ← _rebalanceSingle depositAddress s1;
    Ok (set_registry (EnumerableSet.remove (pcvDepositAddresses s2) depositAddress)
          (pcvDepositWeights s2) (totalWeight s2) s2).

(** *** Construction *)

(** A [uint128] argument: the ABI decoder reverts on a value outside the
    type before the body of the function runs. *)
Definition is_uint128 (n : N) : bool := n <=? MAX_UINT128.

(** The state the constructor leaves. [sender]-independent parts of the
    world (the token ledger, the role tables of Core, the address the
    contract is deployed at) are arguments. The weights and the buffer
    weight are [uint128] in the source; the PCV controller role becomes the
    contract's admin role. *)
Definition constructor (this_ : address) (governors controllers : gset address)
    (ledger_ : gmap address N)
    (_rewardsAssetManager _token : address)
    (_initialPCVDepositAddresses : list address)
    (_initialPCVDepositWeights : list N) (_bufferWeight : N) : result State :=
  _ ← require (forallb is_uint128 _initialPCVDepositWeights
               && is_uint128 _bufferWeight) InvalidArgument;
  _ ← require (length _initialPCVDepositAddresses =?
               length _initialPCVDepositWeights)%nat LengthMismatch;
  _ ← require (negb (_rewardsAssetManager =? 0)) NullRewardsAssetManager;
  let s0 := _setContractAdminRole controllers
              (mkState this_ false governors controllers [] ∅ _bufferWeight
                 _bufferWeight _token _rewardsAssetManager ledger_ []) in
  for_loop
    (λ i st,
      a ← idx _initialPCVDepositAddresses i;
      w ← idx _initialPCVDepositWeights i;
      _addPCVDeposit a w st)
    0 (length _initialPCVDepositAddresses) s0.

(** *** External functions *)

Definition rebalance (s : State) : result State :=
  _ ← whenNotPaused s;
  _rebalance s.

Definition rebalanceSingle (pcvDeposit_ : address) (s : State) : result State :=
  _ ← whenNotPaused s;
  _rebalanceSingle pcvDeposit_ s.

Definition deposit (s : State) : result State :=
  _ ← whenNotPaused s;
  '(actualAggregatorBalance, underlyingSum, underlyingBalances) ←
    _getUnderlyingBalancesAndSum s;
  totalBalance ← add underlyingSum actualAggregatorBalance;
  product ← mul (bufferWeight s) totalBalance;
  optimalAggregatorBalance ← div product (totalWeight s);
  if actualAggregatorBalance <=? optimalAggregatorBalance then Ok s
  else
    amountAvailableForUnderlyingDeposits ←
      sub optimalAggregatorBalance actualAggregatorBalance;
    optimalUnderlyingBalances ← _getOptimalUnderlyingBalances s totalBalance;
    amountsNeeded ←
      UintArrayOps.positiveDifference optimalUnderlyingBalances underlyingBalances;
    totalAmountNeeded ← UintArrayOps.sum amountsNeeded;
    scalar ← Decimal.ratio amountAvailableForUnderlyingDeposits totalAmountNeeded;
    for_loop
      (λ i st,
        needed ← idx amountsNeeded i;
        scaled ← Decimal.mul scalar needed;
        amountToSend ← Decimal.asUint256 scaled;
        if 0 <? amountToSend then
          a ← EnumerableSet.at_ (pcvDepositAddresses st) i;
          _depositToUnderlying a amountToSend st
        else Ok st)
      0 (length underlyingBalances) s.

Definition withdraw (sender to : address) (amount : N) (s : State)
    : result State :=
  _ ← onlyPCVController sender s;
  _ ← whenNotPaused s;
  let aggregatorBalance := balance s in
  if amount <? aggregatorBalance then safeTransfer to amount s
  else
    underlyingBalances ← _getUnderlyingBalances s;
    totalUnderlyingBalance ← UintArrayOps.sum underlyingBalances;
    totalBalance ← add totalUnderlyingBalance aggregatorBalance;
    _ ← require (amount <=? totalBalance) InsufficientTotalBalance;
    amountNeededFromUnderlying ← sub amount aggregatorBalance;
    totalUnderlyingBalanceAfterWithdraw ←
      sub totalUnderlyingBalance amountNeededFromUnderlying;
    idealUnderlyingBalancesPostWithdraw ←
      tabulate
        (λ i,
          a ← EnumerableSet.at_ (pcvDepositAddresses s) i;
          product ← mul totalUnderlyingBalanceAfterWithdraw (weightOf s a);
          div product (totalWeight s))
        (length (pcvDepositAddresses s));
    s1 ← for_loop
      (λ i st,
        pcvDepositAddress ← EnumerableSet.at_ (pcvDepositAddresses st) i;
        actualPcvDepositBalance ← idx underlyingBalances i;
        idealPcvDepositBalance ← idx idealUnderlyingBalancesPostWithdraw i;
        if idealPcvDepositBalance <? actualPcvDepositBalance then
          amountToWithdraw ← sub actualPcvDepositBalance idealPcvDepositBalance;
          pcvWithdraw pcvDepositAddress (this st) amountToWithdraw st
        else Ok st)
      0 (length (pcvDepositAddresses s)) s;
    safeTransfer to amount s1.

Definition setBufferWeight (sender : address) (newBufferWeight : N) (s : State)
    : result State :=
  _ ← onlyGovernorOrAdmin sender s;
  new ← toInt256 newBufferWeight;
  old ← toInt256 (bufferWeight s);
  difference ← isub new old;
  current ← toInt256 (totalWeight s);
  shifted ← iadd current difference;
  tw ← toUint256 shifted;
  Ok (set_buffer newBufferWeight tw s).

Definition setPCVDepositWeight (sender depositAddress : address)
    (newDepositWeight : N) (s : State) : result State :=
  _ ← onlyGovernorOrAdmin sender s;
  _ ← require (EnumerableSet.contains (pcvDepositAddresses s) depositAddress)
        UnknownDeposit;
  let oldDepositWeight := weightOf s depositAddress in
  new ← toInt256 newDepositWeight;
  old ← toInt256 oldDepositWeight;
  difference ← isub new old;
  current ← toInt256 (totalWeight s);
  shifted ← iadd current difference;
  tw ← toUint256 shifted;
  Ok (set_registry (pcvDepositAddresses s)
        (<[depositAddress := newDepositWeight]> (pcvDepositWeights s)) tw s).

Definition removePCVDeposit (sender pcvDeposit_ : address) (s : State)
    : result State :=
  _ ← onlyGovernorOrAdmin sender s;
  _removePCVDeposit pcvDeposit_ s.

Definition addPCVDeposit (sender newPCVDeposit : address) (weight : N)
    (s : State) : result State :=
  _ ← onlyGovernorOrAdmin sender s;
  _addPCVDeposit newPCVDeposit weight s.

(** ** The registry mutators as one transition *)

Inductive mutator : Type :=
  | AddPCVDeposit (newPCVDeposit : address) (weight : N)
  | RemovePCVDeposit (pcvDeposit_ : address)
  | SetPCVDepositWeight (depositAddress : address) (newDepositWeight : N)
  | SetBufferWeight (newBufferWeight : N).

Definition mutate (sender : address) (m : mutator) (s : State) : result State :=
  match m with
  | AddPCVDeposit a w => addPCVDeposit sender a w s
  | RemovePCVDeposit a => removePCVDeposit sender a s
  | SetPCVDepositWeight a w => setPCVDepositWeight sender a w s
  | SetBufferWeight w => setBufferWeight sender w s
  end.

(** A sequence of transactions: one that reverts leaves the state as it was. *)
Fixpoint run (txs : list (address * mutator)) (s : State) : State :=
  match txs with
  | [] => s
  | (sender, m) :: rest =>
      match mutate sender m s with
      | Ok s' => run rest s'
      | Revert _ => run rest s
      end
  end.

(** ** The quantities of the specification

    Written from the specification's words, over unbounded integers, to be
    compared with what the contract computes. *)

Definition total (l : list N) : N := foldr N.add 0 l.

Definition actualBalance (s : State) (a : address) : N := pcvBalance s a.

Definition underlyingBalancesOf (s : State) : list N :=
  actualBalance s <$> pcvDepositAddresses s.

(** [totalBalance = aggregatorBalance + sumOfDepositBalances]. *)
Definition totalBalance (s : State) : N :=
  balance s + total (underlyingBalancesOf s).

(** [idealBalance(i) = totalBalance * weight(i) / totalWeight]. *)
Definition idealBalance (s : State) (a : address) : N :=
  totalBalance s * weightOf s a / totalWeight s.

(** [distance(i) = idealBalance(i) - actualBalance(i)]. *)
Definition distance (s : State) (a : address) : Z :=
  (Z.of_N (idealBalance s a) - Z.of_N (actualBalance s a))%Z.

(** The distance of [a] is computable in the contract's integer types:
    no division by zero, no overflow, both casts to [int256] fit. *)
Definition computable (s : State) (a : address) : Prop :=
  totalWeight s ≠ 0 ∧
  totalBalance s * weightOf s a ≤ MAX_UINT256 ∧
  (Z.of_N (idealBalance s a) ≤ MAX_INT256)%Z ∧
  (Z.of_N (actualBalance s a) ≤ MAX_INT256)%Z.

(** [totalWeight == bufferWeight + sum(weight for all SubDeposit)]. *)
Definition weight_invariant (s : State) : Prop :=
  totalWeight s = bufferWeight s + total (weightOf s <$> pcvDepositAddresses s).

(** What EnumerableSet guarantees of its array, and the weight invariant. *)
Definition registry_ok (s : State) : Prop :=
  NoDup (pcvDepositAddresses s) ∧ weight_invariant s.

(** ** The two phases of a full rebalance *)

(** What is pulled from a deposit at distance [d], and what is pushed to it. *)
Definition excess (d : Z) : N := Z.to_N (- d).
Definition shortfall (d : Z) : N := Z.to_N d.

(** The calls of the withdrawal phase, for deposits [addrs] at distances [ds]. *)
Fixpoint withdrawals (this_ : address) (addrs : list address) (ds : list Z)
    : list call :=
  match addrs, ds with
  | a :: addrs', d :: ds' =>
      (if (d <? 0)%Z then [DepositWithdraw a this_ (excess d)] else [])
      ++ withdrawals this_ addrs' ds'
  | _, _ => []
  end.

(** The calls of the deposit phase. *)
Fixpoint topups (addrs : list address) (ds : list Z) : list call :=
  match addrs, ds with
  | a :: addrs', d :: ds' =>
      (if (0 <? d)%Z then [TokenTransfer a (shortfall d); DepositDeposit a] else [])
      ++ topups addrs' ds'
  | _, _ => []
  end.

Definition is_withdraw (c : call) : bool :=
  match c with DepositWithdraw _ _ _ => true | _ => false end.

(** Every transfer out of the aggregator in [cs] is covered by what the
    aggregator holds when it is made, starting from [idle] and counting the
    withdrawals that arrive in between. *)
Fixpoint affordable (idle : N) (cs : list call) : Prop :=
  match cs with
  | [] => True
  | TokenTransfer _ amount :: rest => amount ≤ idle ∧ affordable (idle - amount) rest
  | DepositWithdraw _ _ amount :: rest => affordable (idle + amount) rest
  | DepositDeposit _ :: rest => affordable idle rest
  end.

(** The ledger [lg] after the first [i] steps of the withdrawal phase, run
    from the ledger [lg0] over the deposits [l] at distances [dist]. *)
Definition pulled (this_ : address) (l : list address) (dist : address → Z)
    (lg0 : gmap address N) (i : nat) (lg : gmap address N) : Prop :=
  bal lg this_ = bal lg0 this_ + total ((excess ∘ dist) <$> take i l) ∧
  ∀ j a, l !! j = Some a →
    bal lg a = if decide (j < i)%nat then bal lg0 a - excess (dist a)
               else bal lg0 a.

(** The ledger [lg] after the first [i] steps of the deposit phase, run from
    the ledger [lg1]. *)
Definition pushed (this_ : address) (l : list address) (dist : address → Z)
    (lg1 : gmap address N) (i : nat) (lg : gmap address N) : Prop :=
  bal lg this_ + total ((shortfall ∘ dist) <$> take i l) = bal lg1 this_ ∧
  ∀ j a, l !! j = Some a →
    bal lg a = if decide (j < i)%nat then bal lg1 a + shortfall (dist a)
               else bal lg1 a.

(** ** Further quantities

    What the constructor has built after the first [i] rounds of its loop
    over [addrs] and [ws]. *)
Definition constructed (this_ : address) (admins controllers : gset address)
    (ledger_ : gmap address N) (ram tok : address)
    (addrs : list address) (ws : list N) (bw : N) (i : nat) (st : State) : Prop :=
  this st = this_ ∧ paused st = false ∧
  governorsOrAdmins st = admins ∧ pcvControllers st = controllers ∧
  token st = tok ∧ rewardsAssetManager st = ram ∧
  ledger st = ledger_ ∧ calls st = [] ∧
  pcvDepositAddresses st = take i addrs ∧
  bufferWeight st = bw ∧
  totalWeight st = bw + total (take i ws) ∧
  NoDup (take i addrs) ∧
  (∀ j a w, (j < i)%nat → addrs !! j = Some a → ws !! j = Some w →
            weightOf st a = w) ∧
  (∀ a, a ∉ take i addrs → weightOf st a = 0).

(** The slow path of [withdraw]: the underlying total once the shortfall of
    the idle balance is taken off, and each deposit's share of it. *)
Definition underlyingAfterWithdraw (s : State) (amount : N) : N :=
  total (underlyingBalancesOf s) - (amount - balance s).

Definition idealPostWithdraw (s : State) (amount : N) (a : address) : N :=
  underlyingAfterWithdraw s amount * weightOf s a / totalWeight s.

Definition distancePostWithdraw (s : State) (amount : N) (a : address) : Z :=
  (Z.of_N (idealPostWithdraw s amount a) - Z.of_N (actualBalance s a))%Z.

(** The optimal aggregator balance of [deposit()]. *)
Definition optimalAggregatorBalance (s : State) : N :=
  bufferWeight s * totalBalance s / totalWeight s.

(** ** A sample deployment

    Three deposits with weights 1, 1, 2 and no buffer, 400 tokens in all:
    deposit 1 holds 100 too many, deposits 2 and 3 hold 40 and 100 too few,
    and the aggregator holds 40. *)

Definition sample_weights : gmap address N := <[1 := 1]> (<[2 := 1]> (<[3 := 2]> ∅)).

Definition sample_ledger : gmap address N :=
  <[10 := 40]> (<[1 := 200]> (<[2 := 60]> (<[3 := 100]> ∅))).

Definition sample : State :=
  mkState 10 false {[7]} {[8]} [1; 2; 3] sample_weights 0 4 20 30
    sample_ledger [].

(** The sample deployment as its constructor leaves it: the PCV controller
    8 passes the admin gate beside the governor 7. *)
Definition deployed : State :=
  mkState 10 false ({[7]} ∪ {[8]}) {[8]} [1; 2; 3] sample_weights 0 4 20 30
    sample_ledger [].

(** The sample deployment once every deposit holds its ideal balance. *)
Definition balanced_ledger : gmap address N :=
  <[10 := 0]> (<[1 := 100]> (<[2 := 100]> (<[3 := 200]> ∅))).

Definition balanced : State :=
  mkState 10 false {[7]} {[8]} [1; 2; 3] sample_weights 0 4 20 30
    balanced_ledger [].

(** The scenario of the specification: weights 1, 1, 2, no buffer, and 400
    tokens just arrived in the aggregator. *)
Definition funded : State :=
  mkState 10 false {[7]} {[8]} [1; 2; 3] sample_weights 0 4 20 30
    {[10 := 400]} [].

(** A deployment with a single deposit that carries all the weight. *)
Definition lonely : State :=
  mkState 10 false {[7]} {[8]} [1] {[1 := 1]} 0 1 20 30 {[1 := 100]} [].

(** What a removal is expected to achieve: the call goes through, the
    deposit is left empty and is no longer registered. *)
Definition removal_drains (sender id : address) (s : State) : Prop :=
  ∃ s', removePCVDeposit sender id s = Ok s' ∧
        balanceOf s' id = 0 ∧
        id ∉ pcvDepositAddresses s'.

(** ** Further states and state relations *)

(** The sample deployment with a fourth deposit, 5, registered with weight
    zero and holding nothing. *)
Definition with_spare : State :=
  mkState 10 false {[7]} {[8]} [1; 2; 3; 5] (<[5 := 0]> sample_weights) 0 4
    20 30 sample_ledger [].

(** A deployment whose only deposit has weight zero, with no buffer weight. *)
Definition weightless : State :=
  mkState 10 false {[7]} {[8]} [1] {[1 := 0]} 0 0 20 30
    (<[10 := 3]> {[1 := 5]}) [].

(** The accounts outside the registry and other than the aggregator hold in
    [lg] what they hold in [lg0]. *)
Definition untouched (this_ : address) (l : list address)
    (lg0 lg : gmap address N) : Prop :=
  ∀ x, x ∉ l → x ≠ this_ → bal lg x = bal lg0 x.

(** [st] differs from [s] in the token ledger and the trace at most. *)
Definition keeps_registry (s st : State) : Prop :=
  ∃ lg cs, st = with_ledger lg cs s.

(** No address outside the registry carries a weight. *)
Definition no_stale_weight (s : State) : Prop :=
  ∀ a, a ∉ pcvDepositAddresses s → weightOf s a = 0.

(** * Properties *)

(** ** The result monad, loops and arrays *)

Section Monad.
Context {A B : Type}.

Lemma bind_Ok (m : result A) (f : A → result B) (b : B) :
  m ≫= f = Ok b ↔ ∃ a, m = Ok a ∧ f a = Ok b.
Proof.
  destruct m as [a|e]; simpl; split.
  - intros H. by exists a.
  - by intros (a' & [= <-] & H).
  - done.
  - by intros (a' & [=] & _).
Qed.

Lemma bind_Revert (m : result A) (f : A → result B) (e : error) :
  m ≫= f = Revert e ↔ m = Revert e ∨ ∃ a, m = Ok a ∧ f a = Revert e.
Proof.
  destruct m as [a|e']; simpl; split.
  - intros H. right. by exists a.
  - intros [[=] | (a' & [= <-] & H)]. done.
  - intros [= ->]. by left.
  - intros [[= ->] | (a' & [=] & _)]. done.
Qed.

End Monad.

Lemma mapM_cons {A B : Type} (f : A → result B) (x : A) (l : list A) :
  mapM f (x :: l) = y ← f x; k ← mapM f l; Ok (y :: k).
Proof. reflexivity. Qed.

Lemma mapM_Ok {A B : Type} (f : A → result B) (l : list A) (r : list B) :
  mapM f l = Ok r ↔ Forall2 (λ x y, f x = Ok y) l r.
Proof.
  revert r. induction l as [|x l IH]; intros r.
  - split; [intros [= <-]; constructor | by inversion 1].
  - rewrite mapM_cons. split.
    + intros (y & Hy & Hr)%bind_Ok. apply bind_Ok in Hr as (k & Hk & [= <-]).
      constructor; [done | by apply IH].
    + inversion 1 as [|? y ? k Hy Hk]; subst. apply bind_Ok.
      exists y. split; [done|].
      apply bind_Ok. exists k. split; [by apply IH | done].
Qed.

Lemma require_Ok (b : bool) (e : error) (u : unit) :
  require b e = Ok u ↔ b = true.
Proof. destruct b, u; simpl; split; done. Qed.

Lemma tabulate_Ok {A : Type} (f : nat → result A) (n : nat) (r : list A) :
  tabulate f n = Ok r ↔
  length r = n ∧ ∀ i x, r !! i = Some x → f i = Ok x.
Proof.
  unfold tabulate. rewrite mapM_Ok, Forall2_same_length_lookup, length_seq.
  split; intros [Hlen H]; split; try done.
  - intros i x Hx. apply (H i i x); [|done].
    apply lookup_seq. split; [done|]. apply lookup_lt_Some in Hx. lia.
  - intros i j x [-> _]%lookup_seq Hx. by apply H.
Qed.

Lemma idx_Ok {A : Type} (arr : list A) (i : nat) (x : A) :
  idx arr i = Ok x ↔ arr !! i = Some x.
Proof. unfold idx. destruct (arr !! i); split; congruence. Qed.

(** A loop that keeps an invariant and whose body never reverts under it
    runs to its end. *)
Lemma for_loop_inv {St : Type} (I : nat → St → Prop)
    (body : nat → St → result St) (start n : nat) (s : St) :
  I start s →
  (∀ i st, (start ≤ i < start + n)%nat → I i st →
           ∃ st', body i st = Ok st' ∧ I (S i) st') →
  ∃ s', for_loop body start n s = Ok s' ∧ I (start + n)%nat s'.
Proof.
  revert start s. induction n as [|n IH]; intros start s Hs Hbody; simpl.
  - exists s. by rewrite Nat.add_0_r.
  - destruct (Hbody start s) as (s1 & -> & Hs1); [lia | done |]. simpl.
    destruct (IH (S start) s1) as (s' & Hrun & Hs'); [done | |].
    + intros i st Hi. apply Hbody. lia.
    + exists s'. split; [done|]. by replace (start + S n)%nat with (S start + n)%nat by lia.
Qed.

(** ** Checked arithmetic *)

Lemma add_Ok (a b c : N) : add a b = Ok c ↔ c = a + b ∧ a + b ≤ MAX_UINT256.
Proof.
  unfold add. destruct (N.leb_spec (a + b) MAX_UINT256); split.
  - by intros [= <-].
  - by intros [-> _].
  - done.
  - intros [_ ?]. lia.
Qed.

Lemma sub_Ok (a b c : N) : sub a b = Ok c ↔ c = a - b ∧ b ≤ a.
Proof.
  unfold sub. destruct (N.leb_spec b a); split.
  - by intros [= <-].
  - by intros [-> _].
  - done.
  - intros [_ ?]. lia.
Qed.

Lemma mul_Ok (a b c : N) : mul a b = Ok c ↔ c = a * b ∧ a * b ≤ MAX_UINT256.
Proof.
  unfold mul. destruct (N.leb_spec (a * b) MAX_UINT256); split.
  - by intros [= <-].
  - by intros [-> _].
  - done.
  - intros [_ ?]. lia.
Qed.

Lemma div_Ok (a b c : N) : div a b = Ok c ↔ c = a / b ∧ b ≠ 0.
Proof.
  unfold div. destruct (N.eqb_spec b 0); split.
  - done.
  - by intros [_ ?].
  - by intros [= <-].
  - by intros [-> _].
Qed.

Lemma toInt256_Ok (x : N) (z : Z) :
  toInt256 x = Ok z ↔ z = Z.of_N x ∧ (Z.of_N x ≤ MAX_INT256)%Z.
Proof.
  unfold toInt256. destruct (Z.leb_spec (Z.of_N x) MAX_INT256); split.
  - by intros [= <-].
  - by intros [-> _].
  - done.
  - intros [_ ?]. lia.
Qed.

Lemma toUint256_Ok (z : Z) (n : N) :
  toUint256 z = Ok n ↔ n = Z.to_N z ∧ (0 ≤ z)%Z.
Proof.
  unfold toUint256. destruct (Z.leb_spec 0 z); split.
  - by intros [= <-].
  - by intros [-> _].
  - done.
  - intros [_ ?]. lia.
Qed.

Lemma in_int256_true (z : Z) :
  in_int256 z = true ↔ (MIN_INT256 ≤ z ≤ MAX_INT256)%Z.
Proof. unfold in_int256. rewrite andb_true_iff, !Z.leb_le. done. Qed.

Lemma int256_bounds : (MIN_INT256 = - MAX_INT256 - 1)%Z ∧ (0 < MAX_INT256)%Z.
Proof. split; reflexivity. Qed.

Lemma isub_Ok (a b c : Z) :
  isub a b = Ok c ↔ c = (a - b)%Z ∧ (MIN_INT256 ≤ a - b ≤ MAX_INT256)%Z.
Proof.
  unfold isub. rewrite <- in_int256_true. destruct (in_int256 (a - b)); split.
  - by intros [= <-].
  - by intros [-> _].
  - done.
  - by intros [_ ?].
Qed.

Lemma iadd_Ok (a b c : Z) :
  iadd a b = Ok c ↔ c = (a + b)%Z ∧ (MIN_INT256 ≤ a + b ≤ MAX_INT256)%Z.
Proof.
  unfold iadd. rewrite <- in_int256_true. destruct (in_int256 (a + b)); split.
  - by intros [= <-].
  - by intros [-> _].
  - done.
  - by intros [_ ?].
Qed.

Lemma imul_Ok (a b c : Z) :
  imul a b = Ok c ↔ c = (a * b)%Z ∧ (MIN_INT256 ≤ a * b ≤ MAX_INT256)%Z.
Proof.
  unfold imul. rewrite <- in_int256_true. destruct (in_int256 (a * b)); split.
  - by intros [= <-].
  - by intros [-> _].
  - done.
  - by intros [_ ?].
Qed.

(** ** The views against the specification's quantities *)

Lemma sum_from_Ok (l : list N) (acc t : N) :
  acc ≤ MAX_UINT256 →
  UintArrayOps.sum_from acc l = Ok t ↔
  t = acc + total l ∧ acc + total l ≤ MAX_UINT256.
Proof.
  revert acc. induction l as [|x l IH]; intros acc Hacc; simpl.
  - rewrite N.add_0_r. split; [by intros [= <-] | by intros [-> _]].
  - split.
    + intros (acc' & [-> Hle]%add_Ok & H)%bind_Ok.
      apply IH in H as [-> Hle']; [lia | done].
    + intros [-> Hle]. apply bind_Ok. exists (acc + x). split.
      * apply add_Ok. lia.
      * apply IH; lia.
Qed.

Lemma sum_Ok (l : list N) (t : N) :
  UintArrayOps.sum l = Ok t ↔ t = total l ∧ total l ≤ MAX_UINT256.
Proof. unfold UintArrayOps.sum. rewrite sum_from_Ok; [done | lia]. Qed.

Lemma at_Ok (set : list address) (i : nat) (a : address) :
  EnumerableSet.at_ set i = Ok a ↔ set !! i = Some a.
Proof. apply idx_Ok. Qed.

(** Reading the balances of the registered deposits never reverts. *)
Lemma _getUnderlyingBalances_eq (s : State) :
  _getUnderlyingBalances s = Ok (underlyingBalancesOf s).
Proof.
  unfold _getUnderlyingBalances, underlyingBalancesOf. apply tabulate_Ok.
  rewrite length_fmap. split; [done|]. intros i x.
  rewrite list_lookup_fmap. destruct (pcvDepositAddresses s !! i) as [a|] eqn:Ha; [|done].
  intros [= <-]. apply at_Ok in Ha. by rewrite Ha.
Qed.

Lemma _getUnderlyingBalancesAndSum_Ok (s : State) (r : N * N * list N) :
  _getUnderlyingBalancesAndSum s = Ok r ↔
  r = (balance s, total (underlyingBalancesOf s), underlyingBalancesOf s) ∧
  total (underlyingBalancesOf s) ≤ MAX_UINT256.
Proof.
  unfold _getUnderlyingBalancesAndSum. rewrite _getUnderlyingBalances_eq. simpl.
  split.
  - intros (t & [-> Hle]%sum_Ok & [= <-])%bind_Ok. done.
  - intros [-> Hle]. apply bind_Ok. eexists. split; [by apply sum_Ok | done].
Qed.

Lemma getTotalBalance_Ok (s : State) (t : N) :
  getTotalBalance s = Ok t ↔ t = totalBalance s ∧ totalBalance s ≤ MAX_UINT256.
Proof.
  unfold getTotalBalance, totalBalance. rewrite _getUnderlyingBalances_eq. simpl.
  split.
  - intros (u & [-> Hle]%sum_Ok & [-> Hle']%add_Ok)%bind_Ok. lia.
  - intros [-> Hle]. apply bind_Ok. eexists. split.
    + apply sum_Ok. split; [done | lia].
    + apply add_Ok. lia.
Qed.

(** Record that every [Z.of_N x] in sight is non-negative, for [lia]. *)
Ltac of_N_nonneg :=
  repeat match goal with
  | |- context [Z.of_N ?x] =>
      assert_fails (assert (0 ≤ Z.of_N x)%Z by assumption);
      pose proof (N2Z.is_nonneg x)
  | _ : context [Z.of_N ?x] |- _ =>
      assert_fails (assert (0 ≤ Z.of_N x)%Z by assumption);
      pose proof (N2Z.is_nonneg x)
  end.

Lemma lookup_underlyingBalancesOf (s : State) (i : nat) (a : address) :
  pcvDepositAddresses s !! i = Some a →
  underlyingBalancesOf s !! i = Some (actualBalance s a).
Proof. intros H. unfold underlyingBalancesOf. by rewrite list_lookup_fmap, H. Qed.

(** [amountFromTarget] is the negated distance, whenever it is computable. *)
Lemma amountFromTarget_Ok (s : State) (a : address) (d : Z) :
  amountFromTarget s a = Ok d ↔
  totalBalance s ≤ MAX_UINT256 ∧ computable s a ∧ d = (- distance s a)%Z.
Proof.
  unfold amountFromTarget, computable, distance, idealBalance, actualBalance.
  split.
  - intros (t & [-> Ht]%getTotalBalance_Ok & H)%bind_Ok.
    apply bind_Ok in H as (p & [-> Hp]%mul_Ok & H).
    apply bind_Ok in H as (q & [-> HW]%div_Ok & H).
    apply bind_Ok in H as (x & [-> Hx]%toInt256_Ok & H).
    apply bind_Ok in H as (y & [-> Hy]%toInt256_Ok & H).
    apply isub_Ok in H as [-> _].
    rewrite (N.mul_comm (totalBalance s)). repeat split; try done. lia.
  - intros (Ht & (HW & Hp & Hy & Hx) & ->).
    rewrite (N.mul_comm (totalBalance s)) in Hp, Hy |- *.
    apply bind_Ok. exists (totalBalance s). split; [by apply getTotalBalance_Ok|].
    apply bind_Ok. eexists. split; [by apply mul_Ok|].
    apply bind_Ok. eexists. split; [by apply div_Ok|].
    apply bind_Ok. eexists. split; [by apply toInt256_Ok|].
    apply bind_Ok. eexists. split; [by apply toInt256_Ok|].
    apply isub_Ok. pose proof int256_bounds. of_N_nonneg. split; lia.
Qed.

(** [getAllAmountsFromTargets] lists the distances in registry order. *)
Lemma getAllAmountsFromTargets_Ok (s : State) (ds : list Z) :
  getAllAmountsFromTargets s = Ok ds ↔
  totalBalance s ≤ MAX_UINT256 ∧
  length ds = length (pcvDepositAddresses s) ∧
  ∀ i a, pcvDepositAddresses s !! i = Some a →
         computable s a ∧ ds !! i = Some (distance s a).
Proof.
  unfold getAllAmountsFromTargets. split.
  - intros (r & Hr & H)%bind_Ok.
    apply _getUnderlyingBalancesAndSum_Ok in Hr as [-> Hu]. simpl in H.
    apply bind_Ok in H as (t & [-> Ht]%add_Ok & H).
    apply tabulate_Ok in H as [Hlen H].
    fold (totalBalance s) in *. split; [done|]. split; [done|].
    intros i a Ha.
    destruct (lookup_lt_is_Some_2 ds i) as [d Hd].
    { rewrite Hlen. by eapply lookup_lt_Some. }
    specialize (H i d Hd).
    apply bind_Ok in H as (a' & Ha'%at_Ok & H).
    assert (a' = a) as -> by congruence.
    apply bind_Ok in H as (p & [-> Hp]%mul_Ok & H).
    apply bind_Ok in H as (q & [-> HW]%div_Ok & H).
    apply bind_Ok in H as (x & [-> Hx]%toInt256_Ok & H).
    apply bind_Ok in H as (b & Hb%idx_Ok & H).
    rewrite (lookup_underlyingBalancesOf s i a Ha) in Hb. injection Hb as <-.
    apply bind_Ok in H as (y & [-> Hy]%toInt256_Ok & H).
    apply isub_Ok in H as [-> _].
    unfold computable, distance, idealBalance. done.
  - intros (Ht & Hlen & H).
    apply bind_Ok. eexists. split.
    { apply _getUnderlyingBalancesAndSum_Ok. split; [done|].
      unfold totalBalance in Ht. lia. }
    simpl. apply bind_Ok. exists (totalBalance s). split; [by apply add_Ok|].
    apply tabulate_Ok. split; [done|]. intros i d Hd.
    destruct (lookup_lt_is_Some_2 (pcvDepositAddresses s) i) as [a Ha].
    { rewrite <- Hlen. by eapply lookup_lt_Some. }
    destruct (H i a Ha) as [(HW & Hp & Hy & Hx) Hd'].
    assert (d = distance s a) as -> by congruence.
    apply bind_Ok. exists a. split; [by apply at_Ok|].
    apply bind_Ok. eexists. split; [by apply mul_Ok|].
    apply bind_Ok. eexists. split; [by apply div_Ok|].
    apply bind_Ok. eexists. split; [by apply toInt256_Ok|].
    apply bind_Ok. eexists. split.
    { apply idx_Ok. by apply lookup_underlyingBalancesOf. }
    apply bind_Ok. eexists. split; [by apply toInt256_Ok|].
    apply isub_Ok. pose proof int256_bounds.
    unfold distance, idealBalance in *. of_N_nonneg. split; lia.
Qed.

(** ** The two distance views *)

(** C10: for the deposit at registry index [i], [getAllAmountsFromTargets]
    holds [idealBalance - actualBalance] at [i] and [amountFromTarget]
    returns [actualBalance - idealBalance], its exact negation. *)
Theorem amountFromTarget_negates_getAllAmountsFromTargets
    (s : State) (ds : list Z) (i : nat) (a : address) :
  getAllAmountsFromTargets s = Ok ds →
  pcvDepositAddresses s !! i = Some a →
  ds !! i = Some (Z.of_N (idealBalance s a) - Z.of_N (actualBalance s a))%Z ∧
  amountFromTarget s a =
    Ok (Z.of_N (actualBalance s a) - Z.of_N (idealBalance s a))%Z ∧
  ∃ d, ds !! i = Some d ∧ amountFromTarget s a = Ok (- d)%Z.
Proof.
  intros (Ht & Hlen & H)%getAllAmountsFromTargets_Ok Ha.
  destruct (H i a Ha) as [Hc Hd].
  assert (amountFromTarget s a = Ok (- distance s a)%Z) as Hv
    by by apply amountFromTarget_Ok.
  split; [done|]. split.
  - rewrite Hv. f_equal. unfold distance. lia.
  - by exists (distance s a).
Qed.

Lemma amountFromTarget_negates_getAllAmountsFromTargets_witness :
  sample.(pcvDepositAddresses) !! 0%nat = Some 1 ∧
  [-100; 40; 100]%Z !! 0%nat = Some (-100)%Z ∧
  amountFromTarget sample 1 = Ok 100%Z.
Proof.
  split; [reflexivity|].
  destruct (amountFromTarget_negates_getAllAmountsFromTargets
              sample [-100; 40; 100]%Z 0 1) as (H1 & H2 & _).
  - vm_compute. reflexivity.
  - reflexivity.
  - split; [exact H1 | exact H2].
Defined.

(** ** The token ledger *)

Lemma move_Ok (from to : address) (amount : N) (l l' : gmap address N) :
  move from to amount l = Ok l' ↔
  amount ≤ bal l from ∧
  l' = <[to := bal (<[from := bal l from - amount]> l) to + amount]>
         (<[from := bal l from - amount]> l).
Proof.
  unfold move. destruct (N.ltb_spec (bal l from) amount); split.
  - done.
  - intros [? _]. lia.
  - by intros [= <-].
  - by intros [_ ->].
Qed.

Lemma bal_insert (l : gmap address N) (a b : address) (x : N) :
  bal (<[a := x]> l) b = if decide (a = b) then x else bal l b.
Proof. unfold bal. rewrite lookup_insert. by destruct (decide (a = b)). Qed.

(** What a transfer between two distinct accounts does to every balance. *)
Lemma move_bal (from to : address) (amount : N) (l l' : gmap address N) (x : address) :
  move from to amount l = Ok l' → from ≠ to →
  bal l' x = if decide (x = from) then bal l from - amount
             else if decide (x = to) then bal l to + amount
             else bal l x.
Proof.
  intros [Hle ->]%move_Ok Hne. rewrite !bal_insert.
  repeat case_decide; congruence.
Qed.

Lemma move_fits (from to : address) (amount : N) (l : gmap address N) :
  amount ≤ bal l from → ∃ l', move from to amount l = Ok l'.
Proof. intros H. eexists. apply move_Ok. split; [done | reflexivity]. Qed.

(** ** Which errors a step can raise *)

Lemma require_Revert (b : bool) (e e' : error) : require b e = Revert e' → e' = e.
Proof. destruct b; simpl; congruence. Qed.

Lemma move_Revert (from to : address) (amount : N) (l : gmap address N) (e : error) :
  move from to amount l = Revert e → e = TransferExceedsBalance.
Proof. unfold move. case_match; congruence. Qed.

Lemma safeTransfer_Revert (to : address) (amount : N) (s : State) (e : error) :
  safeTransfer to amount s = Revert e → e = TransferExceedsBalance.
Proof.
  unfold safeTransfer. intros [H | (l & _ & [=])]%bind_Revert.
  by apply move_Revert in H.
Qed.

Lemma pcvWithdraw_Revert (dep to : address) (amount : N) (s : State) (e : error) :
  pcvWithdraw dep to amount s = Revert e → e = TransferExceedsBalance.
Proof.
  unfold pcvWithdraw. intros [H | (l & _ & [=])]%bind_Revert.
  by apply move_Revert in H.
Qed.

(** ** Single-deposit rebalance *)

Lemma contains_true (set : list address) (a : address) :
  EnumerableSet.contains set a = true ↔ a ∈ set.
Proof. unfold EnumerableSet.contains. apply bool_decide_eq_true. Qed.

(** The whole behaviour of [_rebalanceSingle] on a registered deposit whose
    distance is computable, by the sign of the specification's distance. *)
Lemma _rebalanceSingle_eq (s : State) (id : address) :
  id ∈ pcvDepositAddresses s →
  totalBalance s ≤ MAX_UINT256 →
  computable s id →
  _rebalanceSingle id s =
    if (distance s id =? 0)%Z then Revert NoRebalanceNeeded
    else if (distance s id <? 0)%Z then
      pcvWithdraw id (this s) (Z.to_N (- distance s id)) s
    else if balance s <? Z.to_N (distance s id) then
      Revert InsufficientAggregatorLiquidity
    else
      s1 ← safeTransfer id (Z.to_N (distance s id)) s; pcvDeposit id s1.
Proof.
  intros Hin Ht Hc. unfold _rebalanceSingle.
  apply contains_true in Hin. rewrite Hin. simpl.
  rewrite (proj2 (amountFromTarget_Ok s id _) (conj Ht (conj Hc eq_refl))). simpl.
  destruct Hc as (HW & Hp & Hy & Hx). pose proof int256_bounds as [Hmin Hmax].
  assert (0 ≤ Z.of_N (idealBalance s id))%Z by lia.
  assert (0 ≤ Z.of_N (actualBalance s id))%Z by lia.
  assert (imul (-1) (- distance s id) = Ok (distance s id)) as Hneg.
  { apply imul_Ok. unfold distance. split; lia. }
  destruct (Z.eqb_spec (distance s id) 0) as [Hz|Hz].
  { rewrite Hz. reflexivity. }
  replace (- distance s id =? 0)%Z with false by (symmetry; apply Z.eqb_neq; lia).
  simpl.
  destruct (Z.ltb_spec (distance s id) 0) as [Hlt|Hge].
  - replace (- distance s id <? 0)%Z with false by (symmetry; apply Z.ltb_ge; lia).
    replace (0 <? - distance s id)%Z with true by (symmetry; apply Z.ltb_lt; lia).
    simpl. unfold toUint256.
    replace (0 <=? - distance s id)%Z with true by (symmetry; apply Z.leb_le; lia).
    reflexivity.
  - replace (- distance s id <? 0)%Z with true by (symmetry; apply Z.ltb_lt; lia).
    replace (0 <? - distance s id)%Z with false by (symmetry; apply Z.ltb_ge; lia).
    rewrite Hneg. simpl. unfold toUint256.
    replace (0 <=? distance s id)%Z with true by (symmetry; apply Z.leb_le; lia).
    simpl. destruct (balance s <? Z.to_N (distance s id)); reflexivity.
Qed.

Lemma rebalanceSingle_unpaused (s : State) (id : address) :
  paused s = false → rebalanceSingle id s = _rebalanceSingle id s.
Proof. intros H. unfold rebalanceSingle, whenNotPaused. by rewrite H. Qed.

(** C6: on an unpaused contract and for a registered deposit whose distance
    is computable, [rebalanceSingle] fails with [NoRebalanceNeeded] if and
    only if [distance = idealBalance - actualBalance] is zero. *)
Theorem rebalanceSingle_NoRebalanceNeeded_iff (s : State) (id : address) :
  paused s = false →
  id ∈ pcvDepositAddresses s →
  totalBalance s ≤ MAX_UINT256 →
  computable s id →
  rebalanceSingle id s = Revert NoRebalanceNeeded ↔
  (Z.of_N (idealBalance s id) - Z.of_N (actualBalance s id) = 0)%Z.
Proof.
  intros Hp Hin Ht Hc. fold (distance s id).
  rewrite rebalanceSingle_unpaused, _rebalanceSingle_eq by done.
  destruct (Z.eqb_spec (distance s id) 0) as [Hz|Hz]; [done|].
  split; [|done]. intros H. exfalso.
  destruct (distance s id <? 0)%Z.
  { by apply pcvWithdraw_Revert in H. }
  destruct (balance s <? Z.to_N (distance s id)); [done|].
  apply bind_Revert in H as [H | (s1 & _ & H)]; [|done].
  by apply safeTransfer_Revert in H.
Qed.

Lemma rebalanceSingle_NoRebalanceNeeded_iff_witness :
  (Z.of_N (idealBalance balanced 1%N) - Z.of_N (actualBalance balanced 1%N) = 0)%Z ∧
  rebalanceSingle 1 balanced = Revert NoRebalanceNeeded.
Proof.
  split; [reflexivity|].
  apply rebalanceSingle_NoRebalanceNeeded_iff.
  - reflexivity.
  - apply (bool_decide_unpack _). vm_compute. exact I.
  - apply N.leb_le. vm_compute. reflexivity.
  - repeat split; first [ apply N.eqb_neq | apply N.leb_le | apply Z.leb_le ];
      vm_compute; reflexivity.
  - reflexivity.
Defined.

(** C7: for a registered deposit with a nonzero, computable distance
    [d = idealBalance - actualBalance]. If [d < 0] the call succeeds with the
    single external call [withdraw(aggregator, |d|)] on the deposit, which
    moves [|d|] tokens from the deposit to the aggregator. If [d > 0] the
    call fails with [InsufficientAggregatorLiquidity] exactly when the
    aggregator holds less than [d], and otherwise transfers [d] tokens from
    the aggregator to the deposit and calls its [deposit()]. *)
Theorem rebalanceSingle_by_sign (s : State) (id : address) :
  paused s = false →
  id ∈ pcvDepositAddresses s →
  id ≠ this s →
  totalBalance s ≤ MAX_UINT256 →
  computable s id →
  distance s id ≠ 0%Z →
  ((distance s id < 0)%Z →
     ∃ s', rebalanceSingle id s = Ok s' ∧
       calls s' = calls s ++ [DepositWithdraw id (this s) (Z.to_N (- distance s id))] ∧
       Z.of_N (balanceOf s' id) = (Z.of_N (balanceOf s id) + distance s id)%Z ∧
       Z.of_N (balanceOf s' (this s)) = (Z.of_N (balance s) - distance s id)%Z) ∧
  ((0 < distance s id)%Z →
     (rebalanceSingle id s = Revert InsufficientAggregatorLiquidity ↔
      (Z.of_N (balance s) < distance s id)%Z) ∧
     ((distance s id ≤ Z.of_N (balance s))%Z →
      ∃ s', rebalanceSingle id s = Ok s' ∧
        calls s' = calls s ++ [TokenTransfer id (Z.to_N (distance s id));
                               DepositDeposit id] ∧
        Z.of_N (balanceOf s' id) = (Z.of_N (balanceOf s id) + distance s id)%Z ∧
        Z.of_N (balanceOf s' (this s)) = (Z.of_N (balance s) - distance s id)%Z)).
Proof.
  intros Hp Hin Hne Ht Hc Hz.
  rewrite rebalanceSingle_unpaused, _rebalanceSingle_eq by done.
  replace (distance s id =? 0)%Z with false by (symmetry; by apply Z.eqb_neq).
  split.
  - intros Hlt.
    replace (distance s id <? 0)%Z with true by (symmetry; by apply Z.ltb_lt).
    assert (Z.to_N (- distance s id) ≤ bal (ledger s) id) as Hle.
    { unfold distance, actualBalance, pcvBalance, balanceOf in *. lia. }
    destruct (move_fits id (this s) _ _ Hle) as [l Hl].
    unfold pcvWithdraw. rewrite Hl. simpl. eexists. split; [reflexivity|].
    split; [done|]. unfold balanceOf, balance, balanceOf. simpl.
    rewrite !(move_bal _ _ _ _ _ _ Hl Hne).
    rewrite decide_True by done. rewrite decide_False by done.
    rewrite decide_True by done. lia.
  - intros Hgt.
    replace (distance s id <? 0)%Z with false by (symmetry; apply Z.ltb_ge; lia).
    destruct (N.ltb_spec (balance s) (Z.to_N (distance s id))) as [Hb|Hb].
    + split; [split; [lia | done] | lia].
    + split.
      * split; [|lia]. intros H. exfalso.
        apply bind_Revert in H as [H | (s1 & _ & H)]; [|done].
        by apply safeTransfer_Revert in H.
      * intros _.
        destruct (move_fits (this s) id _ _ Hb) as [l Hl].
        unfold safeTransfer. rewrite Hl. simpl. eexists. split; [reflexivity|].
        simpl. rewrite <- app_assoc. split; [done|].
        unfold balanceOf, balance, balanceOf. simpl.
        rewrite !(move_bal _ _ _ _ _ _ Hl (not_eq_sym Hne)).
        rewrite decide_False by done. rewrite decide_True by done.
        rewrite decide_True by done.
        unfold balance, balanceOf in Hb. lia.
Qed.

Lemma rebalanceSingle_by_sign_witness :
  ∃ s', rebalanceSingle 1 sample = Ok s' ∧
        calls s' = [DepositWithdraw 1 10 100] ∧
        balanceOf s' 1 = 100 ∧ balanceOf s' 10 = 140.
Proof.
  destruct (rebalanceSingle_by_sign sample 1) as [Hover _].
  - reflexivity.
  - apply (bool_decide_unpack _). vm_compute. exact I.
  - discriminate.
  - apply N.leb_le. vm_compute. reflexivity.
  - repeat split; first [ apply N.eqb_neq | apply N.leb_le | apply Z.leb_le ];
      vm_compute; reflexivity.
  - vm_compute. discriminate.
  - destruct Hover as (s' & Hrun & Hcalls & Hdep & Hagg).
    + vm_compute. reflexivity.
    + exists s'. split; [exact Hrun|]. split; [exact Hcalls|].
      split; apply N2Z.inj; [exact Hdep | exact Hagg].
Defined.

(** ** Errors of the arithmetic and of the loops *)

Lemma add_Revert (a b : N) (e : error) : add a b = Revert e → e = Panic 0x11.
Proof. unfold add. case_match; congruence. Qed.

Lemma sub_Revert (a b : N) (e : error) : sub a b = Revert e → e = Panic 0x11.
Proof. unfold sub. case_match; congruence. Qed.

Lemma mul_Revert (a b : N) (e : error) : mul a b = Revert e → e = Panic 0x11.
Proof. unfold mul. case_match; congruence. Qed.

Lemma div_Revert (a b : N) (e : error) : div a b = Revert e → e = Panic 0x12.
Proof. unfold div. case_match; congruence. Qed.

Lemma idx_Revert {A : Type} (arr : list A) (i : nat) (e : error) :
  idx arr i = Revert e → e = Panic 0x32.
Proof. unfold idx. case_match; congruence. Qed.

Lemma at_Revert (set : list address) (i : nat) (e : error) :
  EnumerableSet.at_ set i = Revert e → e = Panic 0x32.
Proof. apply idx_Revert. Qed.

Lemma mapM_Revert {A B : Type} (f : A → result B) (l : list A) (e : error) :
  mapM f l = Revert e → ∃ x, f x = Revert e.
Proof.
  induction l as [|x l IH]; [done|]. rewrite mapM_cons.
  intros [H | (y & _ & H)]%bind_Revert; [by exists x|].
  apply bind_Revert in H as [H | (k & _ & H)]; [by apply IH | done].
Qed.

Lemma tabulate_Revert {A : Type} (f : nat → result A) (n : nat) (e : error) :
  tabulate f n = Revert e → ∃ i, f i = Revert e.
Proof. apply mapM_Revert. Qed.

Lemma for_loop_Revert {St : Type} (body : nat → St → result St)
    (start n : nat) (s : St) (e : error) :
  for_loop body start n s = Revert e → ∃ i st, body i st = Revert e.
Proof.
  revert start s. induction n as [|n IH]; intros start s; simpl; [done|].
  intros [H | (s1 & _ & H)]%bind_Revert; [by exists start, s | by eapply IH].
Qed.

(** Split a reverting computation into the step that reverted. *)
Ltac revert_cases H :=
  cbv beta in H;
  lazymatch type of H with
  | _ ≫= _ = Revert _ =>
      apply bind_Revert in H as [H | (? & _ & H)]; revert_cases H
  | tabulate _ _ = Revert _ =>
      apply tabulate_Revert in H as (? & H); revert_cases H
  | for_loop _ _ _ _ = Revert _ =>
      apply for_loop_Revert in H as (? & ? & H); revert_cases H
  | (if ?b then _ else _) = Revert _ => destruct b; revert_cases H
  | Ok _ = Revert _ => discriminate H
  | add _ _ = Revert _ => apply add_Revert in H
  | sub _ _ = Revert _ => apply sub_Revert in H
  | mul _ _ = Revert _ => apply mul_Revert in H
  | div _ _ = Revert _ => apply div_Revert in H
  | idx _ _ = Revert _ => apply idx_Revert in H
  | EnumerableSet.at_ _ _ = Revert _ => apply at_Revert in H
  | require _ _ = Revert _ => apply require_Revert in H
  | safeTransfer _ _ _ = Revert _ => apply safeTransfer_Revert in H
  | pcvWithdraw _ _ _ _ = Revert _ => apply pcvWithdraw_Revert in H
  | _ => idtac
  end.

(** ** Withdraw *)

Lemma balance_le_totalBalance (s : State) : balance s ≤ totalBalance s.
Proof. unfold totalBalance. lia. Qed.

(** C8: an authorised [withdraw] on an unpaused contract fails with
    [InsufficientTotalBalance] exactly when [amount > totalBalance], the
    aggregator's idle balance plus the balances of all registered deposits. *)
Theorem withdraw_InsufficientTotalBalance_iff
    (sender to : address) (amount : N) (s : State) :
  sender ∈ pcvControllers s →
  paused s = false →
  totalBalance s ≤ MAX_UINT256 →
  withdraw sender to amount s = Revert InsufficientTotalBalance ↔
  totalBalance s < amount.
Proof.
  intros Hc Hp Ht. unfold withdraw, onlyPCVController, whenNotPaused.
  rewrite bool_decide_eq_true_2, Hp by done. simpl.
  pose proof (balance_le_totalBalance s) as Hb.
  destruct (N.ltb_spec amount (balance s)) as [Hfast|Hslow].
  { split; [|lia]. intros H. by apply safeTransfer_Revert in H. }
  rewrite _getUnderlyingBalances_eq. simpl.
  rewrite (proj2 (sum_Ok _ _) (conj eq_refl (N.le_trans _ _ _ (N.le_add_l _ _) Ht))).
  simpl. fold (totalBalance s).
  replace (add (total (underlyingBalancesOf s)) (balance s)) with (Ok (totalBalance s)).
  2: { symmetry. apply add_Ok. unfold totalBalance in *. lia. }
  simpl. destruct (N.leb_spec amount (totalBalance s)) as [Hle|Hgt]; simpl.
  - split; [|lia]. intros H. exfalso. revert_cases H; discriminate.
  - done.
Qed.

Lemma withdraw_InsufficientTotalBalance_iff_witness :
  withdraw 8 99 401 sample = Revert InsufficientTotalBalance ∧
  withdraw 8 99 400 sample ≠ Revert InsufficientTotalBalance.
Proof.
  assert (8 ∈ pcvControllers sample) as Hc
    by (apply (bool_decide_unpack _); vm_compute; exact I).
  assert (totalBalance sample ≤ MAX_UINT256) as Ht
    by (apply N.leb_le; vm_compute; reflexivity).
  split.
  - apply (proj2 (withdraw_InsufficientTotalBalance_iff 8 99 401 sample
                    Hc eq_refl Ht)).
    vm_compute. reflexivity.
  - intros H.
    apply (proj1 (withdraw_InsufficientTotalBalance_iff 8 99 400 sample
                    Hc eq_refl Ht)) in H.
    vm_compute in H. discriminate H.
Defined.


(** C3, at [amount] equal to the idle balance: the comparison of the fast
    path is strict, so the call takes the slow path and pulls deposit 1 down
    to its post-withdrawal ideal although the idle funds cover the amount. *)
Theorem withdraw_idle_balance_touches_deposit :
  balance sample = 40 ∧
  ∃ s', withdraw 8 99 40 sample = Ok s' ∧
        calls s' = [DepositWithdraw 1 10 110; TokenTransfer 99 40] ∧
        balanceOf sample 1 = 200 ∧ balanceOf s' 1 = 90.
Proof.
  split; [reflexivity|]. eexists. split; [vm_compute; reflexivity|].
  split; [reflexivity|]. split; reflexivity.
Qed.

(** ** Deposit *)

(** [deposit] sends nothing: when it returns, the state is the one it was
    called in. *)
Lemma deposit_Ok_unchanged (s s' : State) : deposit s = Ok s' → s' = s.
Proof.
  unfold deposit. intros (_ & _ & H)%bind_Ok.
  apply bind_Ok in H as (r & Hr & H).
  apply _getUnderlyingBalancesAndSum_Ok in Hr as [-> Hu]. simpl in H.
  apply bind_Ok in H as (t & _ & H).
  apply bind_Ok in H as (p & _ & H).
  apply bind_Ok in H as (q & _ & H).
  destruct (N.leb_spec (balance s) q) as [Hle|Hgt]; [congruence|].
  apply bind_Ok in H as (d & [_ Hd]%sub_Ok & _). lia.
Qed.

(** C2, on the contract as written: whenever the idle balance strictly
    exceeds the optimal aggregator balance, the surplus is computed as
    [optimal - actual], which underflows, and [deposit] reverts with
    Panic(0x11) before any transfer. *)
Theorem deposit_reverts_on_surplus (s : State) :
  paused s = false →
  totalBalance s ≤ MAX_UINT256 →
  bufferWeight s * totalBalance s ≤ MAX_UINT256 →
  totalWeight s ≠ 0 →
  bufferWeight s * totalBalance s / totalWeight s < balance s →
  deposit s = Revert (Panic 0x11).
Proof.
  intros Hp Ht Hm HW Hlt. unfold deposit, whenNotPaused. rewrite Hp. simpl.
  unfold _getUnderlyingBalancesAndSum. rewrite _getUnderlyingBalances_eq. simpl.
  rewrite (proj2 (sum_Ok _ _) (conj eq_refl (N.le_trans _ _ _ (N.le_add_l _ _) Ht))).
  simpl.
  replace (add (total (underlyingBalancesOf s)) (balance s)) with (Ok (totalBalance s)).
  2: { symmetry. apply add_Ok. unfold totalBalance in *. lia. }
  simpl. rewrite (proj2 (mul_Ok _ _ _) (conj eq_refl Hm)). simpl.
  rewrite (proj2 (div_Ok _ _ _) (conj eq_refl HW)). simpl.
  replace (balance s <=? _) with false by (symmetry; by apply N.leb_gt).
  unfold sub.
  replace (balance s <=? _) with false by (symmetry; by apply N.leb_gt).
  reflexivity.
Qed.

(** The scenario "400 tokens arrive, [deposit()] then [rebalance()]": the
    top-up reverts, and the full rebalance alone yields 100, 100, 200. *)
Lemma funded_scenario :
  deposit funded = Revert (Panic 0x11) ∧
  ∃ s', rebalance funded = Ok s' ∧
        balanceOf s' 1 = 100 ∧ balanceOf s' 2 = 100 ∧ balanceOf s' 3 = 200.
Proof.
  split; [vm_compute; reflexivity|].
  eexists. split; [vm_compute; reflexivity|]. repeat split; reflexivity.
Qed.

Lemma deposit_reverts_on_surplus_witness :
  bufferWeight sample * totalBalance sample / totalWeight sample = 0 ∧
  balance sample = 40 ∧
  deposit sample = Revert (Panic 0x11).
Proof.
  split; [reflexivity|]. split; [reflexivity|].
  apply deposit_reverts_on_surplus.
  - reflexivity.
  - apply N.leb_le. vm_compute. reflexivity.
  - apply N.leb_le. vm_compute. reflexivity.
  - discriminate.
  - vm_compute. reflexivity.
Defined.

(** ** The registry *)

Lemma total_app (l k : list N) : total (l ++ k) = total l + total k.
Proof. induction l as [|x l IH]; simpl; lia. Qed.

Lemma total_Permutation (l k : list N) : l ≡ₚ k → total l = total k.
Proof. induction 1; simpl; lia. Qed.

Lemma total_fmap_ext (f g : address → N) (l : list address) :
  (∀ x, x ∈ l → f x = g x) → total (f <$> l) = total (g <$> l).
Proof.
  induction l as [|x l IH]; intros H; csimpl; [done|].
  rewrite (H x), IH; [done | | by left]. intros y Hy. apply H. by right.
Qed.

(** Changing [f] at one member of a duplicate-free list shifts the sum by the
    change at that member. *)
Lemma total_fmap_update (f g : address → N) (l : list address) (a : address) :
  NoDup l → a ∈ l → (∀ x, x ≠ a → g x = f x) →
  total (g <$> l) + f a = total (f <$> l) + g a.
Proof.
  induction l as [|x l IH]; intros Hnd Hin Hext; [by apply elem_of_nil in Hin|].
  apply list.NoDup_cons in Hnd as [Hx Hnd]. csimpl.
  destruct (decide (x = a)) as [->|Hne].
  - rewrite (total_fmap_ext g f l); [lia|].
    intros y Hy. apply Hext. intros ->. done.
  - apply elem_of_cons in Hin as [->|Hin]; [done|].
    rewrite (Hext x Hne). specialize (IH Hnd Hin Hext). lia.
Qed.

Lemma add_fresh (set : list address) (a : address) :
  a ∉ set → EnumerableSet.add set a = set ++ [a].
Proof.
  intros H. unfold EnumerableSet.add, EnumerableSet.contains.
  by rewrite bool_decide_eq_false_2.
Qed.

Lemma insert_Permutation {A : Type} (l : list A) (i : nat) (x z : A) :
  l !! i = Some x → z :: l ≡ₚ x :: <[i := z]> l.
Proof.
  revert i. induction l as [|y l IH]; intros [|i] H; simplify_eq/=.
  - apply Permutation_swap.
  - etrans; [apply Permutation_swap|]. rewrite (IH i H). apply Permutation_swap.
Qed.

(** Removing a member leaves the other members, in some order. *)
Lemma remove_Permutation (set : list address) (a : address) :
  a ∈ set → set ≡ₚ a :: EnumerableSet.remove set a.
Proof.
  intros Hin. unfold EnumerableSet.remove.
  destruct (list_find (λ x, x = a) set) as [[i y]|] eqn:Hfind.
  2: { apply list_find_None in Hfind. rewrite list.Forall_forall in Hfind.
       by destruct (Hfind a Hin). }
  apply list_find_Some in Hfind as (Hi & -> & _).
  destruct (set !! (length set - 1)%nat) as [z|] eqn:Hz.
  2: { apply lookup_ge_None in Hz. apply lookup_lt_Some in Hi. lia. }
  apply lookup_lt_Some in Hi as Hlt.
  destruct (decide (i = (length set - 1)%nat)) as [->|Hne].
  - assert (z = a) as -> by congruence.
    rewrite take_insert_ge by lia.
    rewrite <- (take_drop (length set - 1) set) at 1.
    rewrite (drop_S _ a _ Hi), drop_ge by lia.
    by rewrite Permutation_app_comm.
  - rewrite take_insert_lt by lia.
    rewrite <- (take_drop (length set - 1) set) at 1.
    rewrite (drop_S _ z _ Hz), drop_ge by lia.
    rewrite <- Permutation_cons_append.
    apply insert_Permutation. rewrite lookup_take_lt by lia. done.
Qed.

Lemma remove_NoDup (set : list address) (a : address) :
  NoDup set → a ∈ set →
  NoDup (EnumerableSet.remove set a) ∧ a ∉ EnumerableSet.remove set a.
Proof.
  intros Hnd Hin. rewrite (remove_Permutation set a Hin) in Hnd.
  apply list.NoDup_cons in Hnd as [? ?]. done.
Qed.

Lemma elem_of_remove (set : list address) (a x : address) :
  NoDup set → a ∈ set →
  x ∈ EnumerableSet.remove set a ↔ x ∈ set ∧ x ≠ a.
Proof.
  intros Hnd Hin. destruct (remove_NoDup set a Hnd Hin) as [_ Hnotin].
  rewrite (remove_Permutation set a Hin) at 2. rewrite elem_of_cons.
  split.
  - intros H. split; [by right|]. by intros ->.
  - intros [[->|H] Hne]; done.
Qed.

Lemma weightOf_insert (addrs : list address) (ws : gmap address N) (tw : N)
    (s : State) (a x : address) (w : N) :
  weightOf (set_registry addrs (<[a := w]> ws) tw s) x =
  if decide (a = x) then w else default 0 (ws !! x).
Proof.
  unfold weightOf. simpl. rewrite lookup_insert. by destruct (decide (a = x)).
Qed.

Lemma registry_ok_initial (this_ : address) (admins controllers : gset address)
    (ledger_ : gmap address N) (ram tok : address) (bw : N) :
  registry_ok (mkState this_ false admins controllers [] ∅ bw bw tok ram ledger_ []).
Proof.
  split; [constructor|]. unfold weight_invariant. simpl. lia.
Qed.

Lemma _addPCVDeposit_registry_ok (a : address) (w : N) (s s' : State) :
  registry_ok s → _addPCVDeposit a w s = Ok s' → registry_ok s'.
Proof.
  intros [Hnd Hinv]. unfold _addPCVDeposit.
  intros (_ & Hfresh%require_Ok & H)%bind_Ok.
  apply negb_true_iff, bool_decide_eq_false in Hfresh.
  apply bind_Ok in H as (tw & [-> Htw]%add_Ok & [= <-]).
  rewrite add_fresh by done. split; simpl.
  - apply NoDup_app. split; [done|]. split; [|apply NoDup_singleton].
    intros x Hx ->%list_elem_of_singleton. done.
  - unfold weight_invariant in *. simpl. rewrite fmap_app, total_app. csimpl.
    rewrite weightOf_insert, decide_True by done.
    rewrite (total_fmap_ext _ (weightOf s)); [lia|].
    intros x Hx. rewrite weightOf_insert, decide_False; [done|].
    by intros ->.
Qed.

Lemma setBufferWeight_registry_ok (sender : address) (w : N) (s s' : State) :
  registry_ok s → setBufferWeight sender w s = Ok s' → registry_ok s'.
Proof.
  intros [Hnd Hinv]. unfold setBufferWeight.
  intros (_ & _ & H)%bind_Ok.
  apply bind_Ok in H as (new & [-> _]%toInt256_Ok & H).
  apply bind_Ok in H as (old & [-> _]%toInt256_Ok & H).
  apply bind_Ok in H as (diff & [-> _]%isub_Ok & H).
  apply bind_Ok in H as (tot & [-> _]%toInt256_Ok & H).
  apply bind_Ok in H as (sh & [-> _]%iadd_Ok & H).
  apply bind_Ok in H as (tw & [-> Hpos]%toUint256_Ok & [= <-]).
  split; [done|]. unfold weight_invariant in *. simpl.
  change (weightOf (set_buffer w _ s)) with (weightOf s). lia.
Qed.

Lemma setPCVDepositWeight_registry_ok (sender a : address) (w : N) (s s' : State) :
  registry_ok s → setPCVDepositWeight sender a w s = Ok s' → registry_ok s'.
Proof.
  intros [Hnd Hinv]. unfold setPCVDepositWeight.
  intros (_ & _ & H)%bind_Ok.
  apply bind_Ok in H as (_ & Hin%require_Ok & H). apply contains_true in Hin.
  apply bind_Ok in H as (new & [-> _]%toInt256_Ok & H).
  apply bind_Ok in H as (old & [-> _]%toInt256_Ok & H).
  apply bind_Ok in H as (diff & [-> _]%isub_Ok & H).
  apply bind_Ok in H as (tot & [-> _]%toInt256_Ok & H).
  apply bind_Ok in H as (sh & [-> _]%iadd_Ok & H).
  apply bind_Ok in H as (tw & [-> Hpos]%toUint256_Ok & [= <-]).
  split; [done|]. unfold weight_invariant in *. simpl.
  pose proof (total_fmap_update (weightOf s)
    (weightOf (set_registry (pcvDepositAddresses s)
       (<[a := w]> (pcvDepositWeights s))
       (Z.to_N (Z.of_N (totalWeight s) + (Z.of_N w - Z.of_N (weightOf s a)))) s))
    (pcvDepositAddresses s) a Hnd Hin) as Hsum.
  rewrite weightOf_insert, decide_True in Hsum by done.
  lapply Hsum; [lia|].
  intros x Hne. rewrite weightOf_insert, decide_False; done.
Qed.

(** [_rebalanceSingle] moves tokens and touches nothing of the registry. *)
Lemma _rebalanceSingle_registry (id : address) (s s' : State) :
  _rebalanceSingle id s = Ok s' →
  pcvDepositAddresses s' = pcvDepositAddresses s ∧
  pcvDepositWeights s' = pcvDepositWeights s ∧
  bufferWeight s' = bufferWeight s ∧
  totalWeight s' = totalWeight s.
Proof.
  unfold _rebalanceSingle. intros (_ & _ & H)%bind_Ok.
  apply bind_Ok in H as (d & _ & H).
  apply bind_Ok in H as (_ & _ & H).
  apply bind_Ok in H as (_ & _ & H).
  destruct (0 <? d)%Z.
  - apply bind_Ok in H as (amount & _ & H). unfold pcvWithdraw in H.
    apply bind_Ok in H as (l & _ & [= <-]). done.
  - apply bind_Ok in H as (neg & _ & H).
    apply bind_Ok in H as (amount & _ & H).
    apply bind_Ok in H as (s1 & H1 & [= <-]). unfold safeTransfer in H1.
    apply bind_Ok in H1 as (l & _ & [= <-]). done.
Qed.

Lemma _removePCVDeposit_registry_ok (a : address) (s s' : State) :
  registry_ok s → _removePCVDeposit a s = Ok s' → registry_ok s'.
Proof.
  intros [Hnd Hinv]. unfold _removePCVDeposit.
  intros (_ & Hin%require_Ok & H)%bind_Ok. apply contains_true in Hin.
  pose proof (remove_Permutation _ a Hin) as Hperm.
  destruct (remove_NoDup _ a Hnd Hin) as [Hnd' Hnotin].
  assert (total (weightOf s <$> pcvDepositAddresses s) =
          weightOf s a + total (weightOf s <$> EnumerableSet.remove (pcvDepositAddresses s) a))
    as Hsplit.
  { rewrite (total_Permutation _ _ (fmap_Permutation (weightOf s) _ _ Hperm)). done. }
  destruct ((weightOf s a =? 0) && (pcvBalance s a =? 0)) eqn:Hshort.
  - injection H as <-. apply andb_true_iff in Hshort as [Hw0%N.eqb_eq _].
    split; [done|]. unfold weight_invariant in *. simpl.
    change (weightOf (set_registry _ (pcvDepositWeights s) _ s)) with (weightOf s).
    lia.
  - apply bind_Ok in H as (tw & [-> Hle]%sub_Ok & H).
    apply bind_Ok in H as (s2 & Hreb & [= <-]).
    apply _rebalanceSingle_registry in Hreb as (Ha & Hws & Hbw & Htw).
    simpl in Ha, Hws, Hbw, Htw. split; simpl.
    + by rewrite Ha.
    + unfold weight_invariant in *. simpl. rewrite Ha, Hbw, Htw.
      rewrite (total_fmap_ext _ (weightOf s)); [lia|].
      intros x Hx. unfold weightOf at 1. simpl. rewrite Hws.
      rewrite lookup_insert_ne; [done|]. by intros ->.
Qed.

Lemma for_loop_preserves {St : Type} (I : St → Prop)
    (body : nat → St → result St) (start n : nat) (s s' : St) :
  (∀ i st st', I st → body i st = Ok st' → I st') →
  I s → for_loop body start n s = Ok s' → I s'.
Proof.
  intros Hbody. revert start s. induction n as [|n IH]; intros start s Hs; simpl.
  - by intros [= <-].
  - intros (s1 & H1 & H)%bind_Ok. eapply IH; [|done]. by eapply Hbody.
Qed.

Lemma constructor_registry_ok (this_ : address) (admins controllers : gset address)
    (ledger_ : gmap address N) (ram tok : address)
    (addrs : list address) (ws : list N) (bw : N) (s : State) :
  constructor this_ admins controllers ledger_ ram tok addrs ws bw = Ok s →
  registry_ok s.
Proof.
  unfold constructor. intros (_ & _ & H)%bind_Ok.
  apply bind_Ok in H as (_ & _ & H). apply bind_Ok in H as (_ & _ & H).
  eapply (for_loop_preserves registry_ok); [| |exact H].
  - intros i st st' Hst (a & _ & Hb)%bind_Ok.
    apply bind_Ok in Hb as (w & _ & Hb). by eapply _addPCVDeposit_registry_ok.
  - apply registry_ok_initial.
Qed.

Lemma mutate_registry_ok (sender : address) (m : mutator) (s s' : State) :
  registry_ok s → mutate sender m s = Ok s' → registry_ok s'.
Proof.
  intros Hs. destruct m as [a w|a|a w|w]; simpl.
  - intros (_ & _ & H)%bind_Ok. by eapply _addPCVDeposit_registry_ok.
  - intros (_ & _ & H)%bind_Ok. by eapply _removePCVDeposit_registry_ok.
  - by apply setPCVDepositWeight_registry_ok.
  - by apply setBufferWeight_registry_ok.
Qed.

Lemma run_registry_ok (txs : list (address * mutator)) (s : State) :
  registry_ok s → registry_ok (run txs s).
Proof.
  revert s. induction txs as [|[sender m] txs IH]; intros s Hs; simpl; [done|].
  destruct (mutate sender m s) as [s'|e] eqn:Hm; apply IH; [|done].
  by eapply mutate_registry_ok.
Qed.

(** C1: the constructor establishes
    [totalWeight = bufferWeight + sum of the registered weights], each of
    [addPCVDeposit], [removePCVDeposit], [setPCVDepositWeight] and
    [setBufferWeight] keeps it when it takes effect, and so it holds after
    any sequence of such transactions on a constructed contract. *)
Theorem totalWeight_invariant :
  (∀ this_ admins controllers ledger_ ram tok addrs ws bw s,
     constructor this_ admins controllers ledger_ ram tok addrs ws bw = Ok s →
     registry_ok s) ∧
  (∀ sender m s s',
     registry_ok s → mutate sender m s = Ok s' →
     registry_ok s' ∧
     totalWeight s' =
       bufferWeight s' + total (weightOf s' <$> pcvDepositAddresses s')) ∧
  (∀ this_ admins controllers ledger_ ram tok addrs ws bw s txs,
     constructor this_ admins controllers ledger_ ram tok addrs ws bw = Ok s →
     totalWeight (run txs s) =
       bufferWeight (run txs s) +
       total (weightOf (run txs s) <$> pcvDepositAddresses (run txs s))).
Proof.
  split; [|split].
  - intros. by eapply constructor_registry_ok.
  - intros sender m s s' Hs Hm.
    pose proof (mutate_registry_ok sender m s s' Hs Hm) as Hs'.
    split; [done | apply Hs'].
  - intros this_ admins controllers ledger_ ram tok addrs ws bw s txs Hc.
    apply (run_registry_ok txs s). by eapply constructor_registry_ok.
Qed.

Lemma totalWeight_invariant_witness :
  constructor 10 {[7]} {[8]} sample_ledger 30 20 [1; 2; 3] [1; 1; 2] 0 = Ok deployed ∧
  let s := run [(7, SetBufferWeight 4); (7, RemovePCVDeposit 1);
                (7, AddPCVDeposit 5 6)] deployed in
  totalWeight s = 13 ∧
  totalWeight s = bufferWeight s + total (weightOf s <$> pcvDepositAddresses s).
Proof.
  assert (constructor 10 {[7]} {[8]} sample_ledger 30 20 [1; 2; 3] [1; 1; 2] 0
          = Ok deployed) as Hc by (vm_compute; reflexivity).
  split; [exact Hc|]. split; [vm_compute; reflexivity|].
  destruct totalWeight_invariant as (_ & _ & Hrun).
  exact (Hrun _ _ _ _ _ _ _ _ _ _ _ Hc).
Defined.

(** ** Removal of a deposit *)

(** C9 as stated fails where the removed deposit carries the whole total
    weight: its weight is taken off [totalWeight] first, and the forced
    single rebalance then divides by zero. *)
Lemma removePCVDeposit_last_weight_reverts :
  7 ∈ governorsOrAdmins lonely ∧
  1 ∈ pcvDepositAddresses lonely ∧
  actualBalance lonely 1 = 100 ∧
  removePCVDeposit 7 1 lonely = Revert (Panic 0x12) ∧
  ¬ removal_drains 7 1 lonely.
Proof.
  assert (removePCVDeposit 7 1 lonely = Revert (Panic 0x12)) as Hrun
    by (vm_compute; reflexivity).
  split; [apply (bool_decide_unpack _); vm_compute; exact I|].
  split; [apply (bool_decide_unpack _); vm_compute; exact I|].
  split; [reflexivity|]. split; [exact Hrun|].
  intros (s' & Hok & _). rewrite Hrun in Hok. discriminate Hok.
Qed.

(** C9, amended: take a registered deposit with a nonzero balance, other
    than the aggregator itself, on a contract whose registered deposits are
    pairwise distinct and whose balances are within the integer ranges, and
    let a governor or admin call [removePCVDeposit].

    When the deposit's weight is below [totalWeight], so that the removal
    leaves a nonzero total weight, the call succeeds. The forced single
    rebalance, run while the deposit is still registered, makes one
    external call, which withdraws the deposit's whole balance to the
    aggregator; only then is the deposit taken out of the registry, and
    whatever [getAllAmountsFromTargets] returns afterwards has one entry per
    remaining deposit and none for the removed one.

    When the deposit carries the whole [totalWeight], the call reverts with
    Panic(0x12): the weight is taken off [totalWeight] first and the forced
    single rebalance divides by the zero that is left. A reverted call
    changes nothing, so the deposit stays registered with its balance. *)
Theorem removePCVDeposit_drains_then_removes (sender id : address) (s : State) :
  sender ∈ governorsOrAdmins s →
  NoDup (pcvDepositAddresses s) →
  id ∈ pcvDepositAddresses s →
  id ≠ this s →
  actualBalance s id ≠ 0 →
  totalBalance s ≤ MAX_UINT256 →
  (Z.of_N (actualBalance s id) ≤ MAX_INT256)%Z →
  (weightOf s id < totalWeight s →
   ∃ s2 s',
    _rebalanceSingle id
      (set_registry (pcvDepositAddresses s) (<[id := 0]> (pcvDepositWeights s))
         (totalWeight s - weightOf s id) s) = Ok s2 ∧
    id ∈ pcvDepositAddresses s2 ∧
    calls s2 = calls s ++ [DepositWithdraw id (this s) (actualBalance s id)] ∧
    balanceOf s2 id = 0 ∧
    balanceOf s2 (this s) = balance s + actualBalance s id ∧
    removePCVDeposit sender id s = Ok s' ∧
    s' = set_registry (EnumerableSet.remove (pcvDepositAddresses s2) id)
           (pcvDepositWeights s2) (totalWeight s2) s2 ∧
    (id ∉ pcvDepositAddresses s') ∧
    S (length (pcvDepositAddresses s')) = length (pcvDepositAddresses s) ∧
    (∀ x, x ∈ pcvDepositAddresses s' ↔ x ∈ pcvDepositAddresses s ∧ x ≠ id) ∧
    (∀ ds, getAllAmountsFromTargets s' = Ok ds →
       length ds = length (pcvDepositAddresses s') ∧
       (∀ i a, pcvDepositAddresses s' !! i = Some a →
               a ≠ id ∧ ds !! i = Some (distance s' a)))) ∧
  (weightOf s id = totalWeight s →
   removePCVDeposit sender id s = Revert (Panic 0x12) ∧
   ¬ removal_drains sender id s).
Proof.
  intros Hauth Hnd Hin Hne Hbal Ht Hcast.
  set (s1 := set_registry (pcvDepositAddresses s)
               (<[id := 0]> (pcvDepositWeights s))
               (totalWeight s - weightOf s id) s).
  assert (weightOf s1 id = 0) as Hw1.
  { unfold s1. rewrite weightOf_insert. by rewrite decide_True. }
  split; [intros Hw|intros Hw].
  2: { assert (removePCVDeposit sender id s = Revert (Panic 0x12)) as Hrun.
       { unfold removePCVDeposit, onlyGovernorOrAdmin.
         rewrite bool_decide_eq_true_2 by done. simpl. unfold _removePCVDeposit.
         rewrite (proj2 (contains_true _ _) Hin). simpl.
         replace (pcvBalance s id =? 0) with false
           by (symmetry; by apply N.eqb_neq).
         rewrite andb_false_r.
         rewrite (proj2 (sub_Ok _ _ _) (conj eq_refl (N.eq_le_incl _ _ Hw))).
         simpl. fold s1.
         unfold _rebalanceSingle.
         change (pcvDepositAddresses s1) with (pcvDepositAddresses s).
         rewrite (proj2 (contains_true _ _) Hin). simpl.
         unfold amountFromTarget.
         rewrite (proj2 (getTotalBalance_Ok s1 _) (conj eq_refl Ht)). simpl.
         fold s1. rewrite Hw1. unfold mul. simpl. unfold div.
         rewrite Hw, N.sub_diag. reflexivity. }
       split; [exact Hrun|].
       intros (s' & Hok & _). rewrite Hrun in Hok. discriminate Hok. }
  assert (idealBalance s1 id = 0) as Hideal.
  { unfold idealBalance. rewrite Hw1, N.mul_0_r. apply N.Div0.div_0_l. }
  assert (distance s1 id = - Z.of_N (actualBalance s id))%Z as Hd.
  { unfold distance. rewrite Hideal. reflexivity. }
  destruct (move_fits id (this s) (actualBalance s id) (ledger s)) as [l Hl];
    [done|].
  assert (_rebalanceSingle id s1 =
          Ok (set_ledger l (DepositWithdraw id (this s) (actualBalance s id)) s1))
    as Hreb.
  { rewrite (_rebalanceSingle_eq s1 id); [|done|done|].
    2: { repeat split.
         - simpl. lia.
         - rewrite Hw1. lia.
         - rewrite Hideal. pose proof int256_bounds. lia.
         - done. }
    rewrite Hd.
    replace (- Z.of_N (actualBalance s id) =? 0)%Z with false
      by (symmetry; apply Z.eqb_neq; lia).
    replace (- Z.of_N (actualBalance s id) <? 0)%Z with true
      by (symmetry; apply Z.ltb_lt; lia).
    rewrite Z.opp_involutive, N2Z.id.
    unfold pcvWithdraw. simpl. by rewrite Hl. }
  destruct (remove_NoDup _ id Hnd Hin) as [Hnd' Hnotin].
  eexists _, _. split; [exact Hreb|]. split; [done|]. split; [done|].
  unfold balanceOf, balance, balanceOf. simpl.
  rewrite !(move_bal _ _ _ _ _ _ Hl Hne).
  rewrite decide_True by done. rewrite decide_False by done.
  rewrite decide_True by done.
  split; [unfold actualBalance, pcvBalance, balanceOf; lia|].
  split; [done|]. split.
  { unfold removePCVDeposit, onlyGovernorOrAdmin.
    rewrite bool_decide_eq_true_2 by done. simpl. unfold _removePCVDeposit.
    rewrite (proj2 (contains_true _ _) Hin). simpl.
    replace (pcvBalance s id =? 0) with false by (symmetry; by apply N.eqb_neq).
    rewrite andb_false_r.
    rewrite (proj2 (sub_Ok _ _ _) (conj eq_refl (N.lt_le_incl _ _ Hw))). simpl.
    fold s1. rewrite Hreb. reflexivity. }
  split; [reflexivity|]. simpl. split; [done|]. split.
  { change (S (length (EnumerableSet.remove (pcvDepositAddresses s) id)))
      with (length (id :: EnumerableSet.remove (pcvDepositAddresses s) id)).
    by rewrite <- (remove_Permutation _ id Hin). }
  split; [intros x; by apply elem_of_remove|].
  intros ds (_ & Hlen & Hds)%getAllAmountsFromTargets_Ok. split; [done|].
  intros i a Ha. destruct (Hds i a Ha) as [_ Hdi]. split; [|done].
  simpl in Ha. apply list_elem_of_lookup_2 in Ha. by intros ->.
Qed.

Lemma removePCVDeposit_drains_then_removes_witness :
  (∃ s', removePCVDeposit 7 2 sample = Ok s' ∧
         calls s' = [DepositWithdraw 2 10 60] ∧
         balanceOf s' 2 = 0 ∧
         balanceOf s' 10 = 100 ∧
         2 ∉ pcvDepositAddresses s') ∧
  removePCVDeposit 7 1 lonely = Revert (Panic 0x12).
Proof.
  split.
  - destruct (removePCVDeposit_drains_then_removes 7 2 sample) as [Hdrain _].
    + apply (bool_decide_unpack _). vm_compute. exact I.
    + apply (bool_decide_unpack _). vm_compute. exact I.
    + apply (bool_decide_unpack _). vm_compute. exact I.
    + discriminate.
    + discriminate.
    + apply N.leb_le. vm_compute. reflexivity.
    + apply Z.leb_le. vm_compute. reflexivity.
    + destruct Hdrain
        as (s2 & s' & _ & _ & Hcalls & Hdep & Hagg & Hrun & Hs' & Hgone & _);
        [reflexivity|].
      exists s'. split; [exact Hrun|]. split; [|split; [|split]].
      * rewrite Hs'. exact Hcalls.
      * rewrite Hs'. exact Hdep.
      * rewrite Hs'. exact Hagg.
      * exact Hgone.
  - destruct (removePCVDeposit_drains_then_removes 7 1 lonely) as [_ Hlast].
    + apply (bool_decide_unpack _). vm_compute. exact I.
    + apply (bool_decide_unpack _). vm_compute. exact I.
    + apply (bool_decide_unpack _). vm_compute. exact I.
    + discriminate.
    + discriminate.
    + apply N.leb_le. vm_compute. reflexivity.
    + apply Z.leb_le. vm_compute. reflexivity.
    + exact (proj1 (Hlast eq_refl)).
Defined.

(** ** Full rebalance: the two phases *)

Lemma total_take_S (f : address → N) (l : list address) (i : nat) (a : address) :
  l !! i = Some a →
  total (f <$> take (S i) l) = total (f <$> take i l) + f a.
Proof.
  intros H. rewrite (take_S_r _ _ _ H), fmap_app, total_app. simpl. lia.
Qed.

Lemma total_take_le (f : address → N) (l : list address) (i : nat) :
  total (f <$> take i l) ≤ total (f <$> l).
Proof.
  rewrite <- (take_drop i l) at 2. rewrite fmap_app, total_app. lia.
Qed.

Lemma withdrawals_take_S (this_ : address) (l : list address) (ds : list Z)
    (i : nat) (a : address) (d : Z) :
  l !! i = Some a → ds !! i = Some d →
  withdrawals this_ (take (S i) l) (take (S i) ds) =
  withdrawals this_ (take i l) (take i ds) ++
  (if (d <? 0)%Z then [DepositWithdraw a this_ (excess d)] else []).
Proof.
  revert ds i. induction l as [|x l IH]; intros [|y ds] [|i] Hl Hd;
    simplify_eq/=.
  - destruct l, ds; simpl; by rewrite app_nil_r.
  - rewrite <- app_assoc. f_equal. by apply IH.
Qed.

Lemma topups_take_S (l : list address) (ds : list Z)
    (i : nat) (a : address) (d : Z) :
  l !! i = Some a → ds !! i = Some d →
  topups (take (S i) l) (take (S i) ds) =
  topups (take i l) (take i ds) ++
  (if (0 <? d)%Z then [TokenTransfer a (shortfall d); DepositDeposit a] else []).
Proof.
  revert ds i. induction l as [|x l IH]; intros [|y ds] [|i] Hl Hd;
    simplify_eq/=.
  - destruct l, ds; simpl; by rewrite app_nil_r.
  - rewrite <- app_assoc. f_equal. by apply IH.
Qed.

Section Phases.
Variables (this_ : address) (l : list address) (dist : address → Z).
Hypothesis Hnd : NoDup l.
Hypothesis Hthis : this_ ∉ l.

Lemma pulled_start (lg0 : gmap address N) : pulled this_ l dist lg0 0 lg0.
Proof.
  split; [simpl; lia|]. intros j a _. rewrite decide_False; [done | lia].
Qed.

(** A deposit that is not over-funded is passed over. *)
Lemma pulled_skip (lg0 lg : gmap address N) (i : nat) (a : address) :
  pulled this_ l dist lg0 i lg → l !! i = Some a → excess (dist a) = 0 →
  pulled this_ l dist lg0 (S i) lg.
Proof.
  intros [Hagg Hdep] Hi He. split.
  - rewrite (total_take_S _ _ _ _ Hi). simpl. rewrite He. lia.
  - intros j b Hj. rewrite (Hdep j b Hj).
    destruct (decide (j = i)) as [->|Hne].
    + assert (b = a) as -> by congruence.
      rewrite decide_False, decide_True by lia. lia.
    + repeat case_decide; try lia; done.
Qed.

(** Pulling the excess of the deposit at index [i]. *)
Lemma pulled_step (lg0 lg : gmap address N) (i : nat) (a : address) :
  pulled this_ l dist lg0 i lg → l !! i = Some a →
  excess (dist a) ≤ bal lg0 a →
  ∃ lg', move a this_ (excess (dist a)) lg = Ok lg' ∧
         pulled this_ l dist lg0 (S i) lg'.
Proof.
  intros [Hagg Hdep] Hi Hle.
  assert (a ≠ this_) as Hne.
  { intros ->. apply Hthis. by eapply list_elem_of_lookup_2. }
  pose proof (Hdep i a Hi) as Ha. rewrite decide_False in Ha by lia.
  destruct (move_fits a this_ (excess (dist a)) lg) as [lg' Hmove]; [lia|].
  exists lg'. split; [done|]. split.
  - rewrite (move_bal _ _ _ _ _ _ Hmove Hne).
    rewrite decide_False, decide_True by done.
    rewrite (total_take_S _ _ _ _ Hi). simpl. lia.
  - intros j b Hj. rewrite (move_bal _ _ _ _ _ _ Hmove Hne).
    destruct (decide (b = a)) as [->|Hba].
    + assert (j = i) as -> by (by eapply NoDup_lookup).
      rewrite decide_True by lia. lia.
    + rewrite decide_False.
      2: { intros ->. apply Hthis. by eapply list_elem_of_lookup_2. }
      rewrite (Hdep j b Hj).
      assert (j ≠ i) by (intros ->; congruence).
      repeat case_decide; try lia; done.
Qed.

Lemma pushed_start (lg1 : gmap address N) : pushed this_ l dist lg1 0 lg1.
Proof.
  split; [simpl; lia|]. intros j a _. rewrite decide_False; [done | lia].
Qed.

(** A deposit that is not under-funded is passed over. *)
Lemma pushed_skip (lg1 lg : gmap address N) (i : nat) (a : address) :
  pushed this_ l dist lg1 i lg → l !! i = Some a → shortfall (dist a) = 0 →
  pushed this_ l dist lg1 (S i) lg.
Proof.
  intros [Hagg Hdep] Hi He. split.
  - rewrite (total_take_S _ _ _ _ Hi). simpl. rewrite He. lia.
  - intros j b Hj. rewrite (Hdep j b Hj).
    destruct (decide (j = i)) as [->|Hne].
    + assert (b = a) as -> by congruence.
      rewrite decide_False, decide_True by lia. lia.
    + repeat case_decide; try lia; done.
Qed.

(** Pushing the shortfall of the deposit at index [i]. *)
Lemma pushed_step (lg1 lg : gmap address N) (i : nat) (a : address) :
  pushed this_ l dist lg1 i lg → l !! i = Some a →
  total ((shortfall ∘ dist) <$> l) ≤ bal lg1 this_ →
  ∃ lg', move this_ a (shortfall (dist a)) lg = Ok lg' ∧
         pushed this_ l dist lg1 (S i) lg'.
Proof.
  intros [Hagg Hdep] Hi Hle.
  assert (this_ ≠ a) as Hne.
  { intros <-. apply Hthis. by eapply list_elem_of_lookup_2. }
  pose proof (Hdep i a Hi) as Ha. rewrite decide_False in Ha by lia.
  pose proof (total_take_le (shortfall ∘ dist) l (S i)) as Hpre.
  rewrite (total_take_S _ _ _ _ Hi) in Hpre. simpl in Hpre.
  destruct (move_fits this_ a (shortfall (dist a)) lg) as [lg' Hmove]; [lia|].
  exists lg'. split; [done|]. split.
  - rewrite (move_bal _ _ _ _ _ _ Hmove Hne).
    rewrite decide_True by done.
    rewrite (total_take_S _ _ _ _ Hi). simpl. lia.
  - intros j b Hj. rewrite (move_bal _ _ _ _ _ _ Hmove Hne).
    rewrite decide_False.
    2: { intros ->. apply Hthis. by eapply list_elem_of_lookup_2. }
    destruct (decide (b = a)) as [->|Hba].
    + assert (j = i) as -> by (by eapply NoDup_lookup).
      rewrite decide_True by lia. lia.
    + rewrite (Hdep j b Hj).
      assert (j ≠ i) by (intros ->; congruence).
      repeat case_decide; try lia; done.
Qed.
End Phases.

Lemma with_ledger_id (s : State) : with_ledger (ledger s) (calls s) s = s.
Proof. by destruct s. Qed.

Lemma excess_le_actual (s : State) (a : address) :
  excess (distance s a) ≤ actualBalance s a.
Proof. unfold excess, distance. lia. Qed.

Lemma imul_negate (s : State) (a : address) :
  computable s a →
  imul (-1) (distance s a) = Ok (- distance s a)%Z.
Proof.
  intros (_ & _ & Hi & Ha). pose proof int256_bounds. apply imul_Ok.
  unfold distance. of_N_nonneg. lia.
Qed.

(** The withdrawal phase never reverts; it leaves every over-funded deposit
    at its ideal balance and the excess in the aggregator. *)
Lemma _rebalance_withdraws_spec (s : State) :
  NoDup (pcvDepositAddresses s) →
  this s ∉ pcvDepositAddresses s →
  (∀ a, a ∈ pcvDepositAddresses s → computable s a) →
  ∃ lg1,
    _rebalance_withdraws (distance s <$> pcvDepositAddresses s) s =
      Ok (with_ledger lg1
            (calls s ++ withdrawals (this s) (pcvDepositAddresses s)
                          (distance s <$> pcvDepositAddresses s)) s) ∧
    pulled (this s) (pcvDepositAddresses s) (distance s) (ledger s)
      (length (pcvDepositAddresses s)) lg1.
Proof.
  intros Hnd Hthis Hcomp.
  set (l := pcvDepositAddresses s) in *. set (ds := distance s <$> l).
  unfold _rebalance_withdraws.
  edestruct (for_loop_inv
    (λ i st, ∃ lg,
       st = with_ledger lg
              (calls s ++ withdrawals (this s) (take i l) (take i ds)) s ∧
       pulled (this s) l (distance s) (ledger s) i lg))
    as (s' & Hrun & lg & -> & Hp); [| |rewrite Hrun].
  - exists (ledger s). split; [|apply pulled_start].
    simpl. by rewrite app_nil_r, with_ledger_id.
  - intros i st [_ Hi] (lg & -> & Hp). simpl in Hi.
    destruct (lookup_lt_is_Some_2 l i) as [a Ha].
    { unfold ds in Hi. by rewrite length_fmap in Hi. }
    assert (ds !! i = Some (distance s a)) as Hd.
    { unfold ds. by rewrite list_lookup_fmap, Ha. }
    assert (a ∈ l) as Hin by (by eapply list_elem_of_lookup_2).
    rewrite (proj2 (idx_Ok _ _ _) Hd). simpl.
    rewrite (withdrawals_take_S _ _ _ _ _ _ Ha Hd).
    destruct (Z.ltb_spec (distance s a) 0) as [Hneg|Hpos].
    + fold l. rewrite (proj2 (at_Ok _ _ _) Ha). simpl.
      rewrite (imul_negate s a (Hcomp a Hin)). simpl.
      assert (toUint256 (- distance s a) = Ok (excess (distance s a))) as ->.
      { apply toUint256_Ok. split; [done | lia]. }
      simpl.
      destruct (pulled_step (this s) l (distance s) Hnd Hthis (ledger s) lg i a Hp Ha)
        as (lg' & Hmove & Hp'); [apply excess_le_actual|].
      unfold pcvWithdraw. simpl.
      rewrite Hmove. simpl. eexists. split; [reflexivity|].
      exists lg'. split; [|done].
      unfold set_ledger. simpl. by rewrite <- app_assoc.
    + eexists. split; [reflexivity|]. exists lg. split; [by rewrite app_nil_r|].
      eapply pulled_skip; try done. unfold excess. lia.
  - exists lg. split; [|by rewrite Nat.add_0_l in Hp; unfold ds in Hp; rewrite length_fmap in Hp].
    simpl. unfold ds. rewrite length_fmap.
    fold ds. rewrite (take_ge l), (take_ge ds); try done.
    unfold ds. by rewrite length_fmap.
Qed.

(** The deposit phase never reverts once the aggregator holds the sum of
    the shortfalls; it brings every under-funded deposit to its ideal
    balance. *)
Lemma _rebalance_deposits_spec (s : State) (lg1 : gmap address N) (cs : list call) :
  NoDup (pcvDepositAddresses s) →
  this s ∉ pcvDepositAddresses s →
  total ((shortfall ∘ distance s) <$> pcvDepositAddresses s) ≤ bal lg1 (this s) →
  ∃ lg2,
    _rebalance_deposits (distance s <$> pcvDepositAddresses s)
        (with_ledger lg1 cs s) =
      Ok (with_ledger lg2
            (cs ++ topups (pcvDepositAddresses s)
                     (distance s <$> pcvDepositAddresses s)) s) ∧
    pushed (this s) (pcvDepositAddresses s) (distance s) lg1
      (length (pcvDepositAddresses s)) lg2.
Proof.
  intros Hnd Hthis Hcover.
  set (l := pcvDepositAddresses s) in *. set (ds := distance s <$> l).
  unfold _rebalance_deposits.
  edestruct (for_loop_inv
    (λ i st, ∃ lg,
       st = with_ledger lg (cs ++ topups (take i l) (take i ds)) s ∧
       pushed (this s) l (distance s) lg1 i lg))
    as (s' & Hrun & lg & -> & Hp); [| |rewrite Hrun].
  - exists lg1. split; [|apply pushed_start]. simpl. by rewrite app_nil_r.
  - intros i st [_ Hi] (lg & -> & Hp). simpl in Hi.
    destruct (lookup_lt_is_Some_2 l i) as [a Ha].
    { unfold ds in Hi. by rewrite length_fmap in Hi. }
    assert (ds !! i = Some (distance s a)) as Hd.
    { unfold ds. by rewrite list_lookup_fmap, Ha. }
    rewrite (proj2 (idx_Ok _ _ _) Hd). simpl.
    rewrite (topups_take_S _ _ _ _ _ Ha Hd).
    destruct (Z.ltb_spec 0 (distance s a)) as [Hpos|Hneg].
    + fold l. rewrite (proj2 (at_Ok _ _ _) Ha). simpl.
      assert (toUint256 (distance s a) = Ok (shortfall (distance s a))) as ->.
      { apply toUint256_Ok. split; [done | lia]. }
      simpl.
      destruct (pushed_step (this s) l (distance s) Hnd Hthis lg1 lg i a Hp Ha Hcover)
        as (lg' & Hmove & Hp').
      unfold safeTransfer. simpl. rewrite Hmove. simpl.
      fold l. rewrite (proj2 (at_Ok _ _ _) Ha). simpl.
      eexists. split; [reflexivity|]. exists lg'. split; [|done].
      unfold pcvDeposit, set_ledger. simpl. by rewrite <- !app_assoc.
    + eexists. split; [reflexivity|]. exists lg. split; [by rewrite app_nil_r|].
      eapply pushed_skip; try done. unfold shortfall. lia.
  - exists lg. split; [|by rewrite Nat.add_0_l in Hp; unfold ds in Hp; rewrite length_fmap in Hp].
    simpl. unfold ds. rewrite length_fmap.
    fold ds. rewrite (take_ge l), (take_ge ds); try done.
    unfold ds. by rewrite length_fmap.
Qed.

(** ** Full rebalance: sums *)

Lemma total_fmap_add (f g : address → N) (l : list address) :
  total ((λ a, f a + g a) <$> l) = total (f <$> l) + total (g <$> l).
Proof. induction l as [|x l IH]; csimpl; lia. Qed.

Lemma getAllAmountsFromTargets_distance (s : State) (ds : list Z) :
  getAllAmountsFromTargets s = Ok ds →
  ds = distance s <$> pcvDepositAddresses s ∧
  totalBalance s ≤ MAX_UINT256 ∧
  ∀ a, a ∈ pcvDepositAddresses s → computable s a.
Proof.
  intros (Ht & Hlen & H)%getAllAmountsFromTargets_Ok. split; [|split; [done|]].
  - apply list_eq. intros i. rewrite list_lookup_fmap.
    destruct (pcvDepositAddresses s !! i) as [a|] eqn:Ha; simpl.
    + by destruct (H i a Ha).
    + apply lookup_ge_None. rewrite Hlen. by apply lookup_ge_None.
  - intros a (i & Ha)%list_elem_of_lookup_1. by destruct (H i a Ha).
Qed.

(** Truncated shares never add up to more than the whole. *)
Lemma total_shares_le (t W : N) (w : address → N) (l : list address) :
  W ≠ 0 →
  total ((λ a, t * w a / W) <$> l) * W ≤ t * total (w <$> l).
Proof.
  intros HW. induction l as [|x l IH]; csimpl; [lia|].
  pose proof (N.Div0.mul_div_le (t * w x) W). lia.
Qed.

Lemma total_ideal_le (s : State) :
  weight_invariant s →
  (∀ a, a ∈ pcvDepositAddresses s → computable s a) →
  total (idealBalance s <$> pcvDepositAddresses s) ≤ totalBalance s.
Proof.
  intros Hinv Hcomp. destruct (decide (totalWeight s = 0)) as [HW|HW].
  - destruct (pcvDepositAddresses s) as [|a l]; [simpl; lia|].
    destruct (Hcomp a) as [HW' _]; [by left | done].
  - pose proof (total_shares_le (totalBalance s) (totalWeight s) (weightOf s)
                  (pcvDepositAddresses s) HW) as Hle.
    unfold weight_invariant in Hinv.
    change (λ a, totalBalance s * weightOf s a / totalWeight s)
      with (idealBalance s) in Hle.
    nia.
Qed.

Lemma shortfall_excess (s : State) (a : address) :
  shortfall (distance s a) + actualBalance s a =
  excess (distance s a) + idealBalance s a.
Proof. unfold shortfall, excess, distance. lia. Qed.

(** After the withdrawal phase the aggregator holds at least the sum of all
    shortfalls. *)
Lemma pulled_covers (s : State) (lg1 : gmap address N) :
  weight_invariant s →
  (∀ a, a ∈ pcvDepositAddresses s → computable s a) →
  pulled (this s) (pcvDepositAddresses s) (distance s) (ledger s)
    (length (pcvDepositAddresses s)) lg1 →
  total ((shortfall ∘ distance s) <$> pcvDepositAddresses s) ≤ bal lg1 (this s).
Proof.
  intros Hinv Hcomp [Hagg _]. rewrite Hagg, take_ge by done.
  pose proof (total_ideal_le s Hinv Hcomp) as Hideal.
  pose proof (total_fmap_add (shortfall ∘ distance s) (actualBalance s)
                (pcvDepositAddresses s)) as H1.
  pose proof (total_fmap_add (excess ∘ distance s) (idealBalance s)
                (pcvDepositAddresses s)) as H2.
  rewrite (total_fmap_ext _ (λ a, (excess ∘ distance s) a + idealBalance s a)) in H1.
  2: { intros a _. apply shortfall_excess. }
  unfold totalBalance, underlyingBalancesOf, balance, balanceOf in Hideal.
  lia.
Qed.

(** ** Full rebalance: the trace *)

Lemma withdrawals_are_withdraws (this_ : address) (l : list address) (ds : list Z) :
  Forall (λ c, is_withdraw c = true) (withdrawals this_ l ds).
Proof.
  revert ds. induction l as [|a l IH]; intros [|d ds]; simpl; try constructor.
  destruct (d <? 0)%Z; simpl; [constructor; [done|]|]; apply IH.
Qed.

Lemma topups_are_not_withdraws (l : list address) (ds : list Z) :
  Forall (λ c, is_withdraw c = false) (topups l ds).
Proof.
  revert ds. induction l as [|a l IH]; intros [|d ds]; simpl; try constructor.
  destruct (0 <? d)%Z; simpl; [constructor; [done|constructor; [done|]]|];
    apply IH.
Qed.

Lemma affordable_topups (dist : address → Z) (l : list address) (idle : N) :
  total ((shortfall ∘ dist) <$> l) ≤ idle →
  affordable idle (topups l (dist <$> l)).
Proof.
  revert idle. induction l as [|a l IH]; intros idle; csimpl; [done|].
  intros Hle. destruct (0 <? dist a)%Z; simpl.
  - split; [lia|]. apply IH. lia.
  - apply IH. lia.
Qed.

Lemma affordable_withdrawals (this_ : address) (dist : address → Z)
    (l : list address) (cs : list call) (idle : N) :
  affordable (idle + total ((excess ∘ dist) <$> l)) cs →
  affordable idle (withdrawals this_ l (dist <$> l) ++ cs).
Proof.
  revert idle. induction l as [|a l IH]; intros idle; csimpl.
  - by rewrite N.add_0_r.
  - intros H. destruct (Z.ltb_spec (dist a) 0) as [Hneg|Hpos]; simpl.
    + apply IH. by rewrite <- N.add_assoc.
    + apply IH. replace (excess (dist a)) with 0 in H by (unfold excess; lia).
      by rewrite N.add_0_l in H.
Qed.

(** The whole of [_rebalance], from a state in which the distances are
    computable. *)
Lemma _rebalance_spec (s : State) (ds : list Z) :
  registry_ok s →
  this s ∉ pcvDepositAddresses s →
  getAllAmountsFromTargets s = Ok ds →
  ∃ lg1 lg2,
    ds = distance s <$> pcvDepositAddresses s ∧
    _rebalance_withdraws ds s =
      Ok (with_ledger lg1
            (calls s ++ withdrawals (this s) (pcvDepositAddresses s) ds) s) ∧
    _rebalance_deposits ds
        (with_ledger lg1
           (calls s ++ withdrawals (this s) (pcvDepositAddresses s) ds) s) =
      Ok (with_ledger lg2
            ((calls s ++ withdrawals (this s) (pcvDepositAddresses s) ds)
             ++ topups (pcvDepositAddresses s) ds) s) ∧
    _rebalance s =
      Ok (with_ledger lg2
            ((calls s ++ withdrawals (this s) (pcvDepositAddresses s) ds)
             ++ topups (pcvDepositAddresses s) ds) s) ∧
    pulled (this s) (pcvDepositAddresses s) (distance s) (ledger s)
      (length (pcvDepositAddresses s)) lg1 ∧
    pushed (this s) (pcvDepositAddresses s) (distance s) lg1
      (length (pcvDepositAddresses s)) lg2 ∧
    total ((shortfall ∘ distance s) <$> pcvDepositAddresses s) ≤ bal lg1 (this s).
Proof.
  intros [Hnd Hinv] Hthis Hget.
  destruct (getAllAmountsFromTargets_distance s ds Hget) as (-> & Ht & Hcomp).
  destruct (_rebalance_withdraws_spec s Hnd Hthis Hcomp) as (lg1 & Hw & Hp1).
  pose proof (pulled_covers s lg1 Hinv Hcomp Hp1) as Hcover.
  destruct (_rebalance_deposits_spec s lg1
              (calls s ++ withdrawals (this s) (pcvDepositAddresses s)
                            (distance s <$> pcvDepositAddresses s))
              Hnd Hthis Hcover) as (lg2 & Hd & Hp2).
  exists lg1, lg2. split; [done|]. split; [done|]. split; [done|].
  split; [|done]. unfold _rebalance.
  assert (total (underlyingBalancesOf s) ≤ MAX_UINT256) as Hu
    by (unfold totalBalance in Ht; lia).
  rewrite (proj2 (_getUnderlyingBalancesAndSum_Ok s _) (conj eq_refl Hu)). simpl.
  assert (add (total (underlyingBalancesOf s)) (balance s) = Ok (totalBalance s))
    as ->.
  { apply add_Ok. unfold totalBalance in *. lia. }
  simpl. rewrite Hget. simpl. rewrite Hw. simpl. exact Hd.
Qed.

(** C4: in a full rebalance of a contract that keeps the weight invariant,
    every withdrawal from an over-funded deposit is made before any transfer
    to an under-funded one; after the withdrawals the aggregator holds at
    least the sum of all transfers of the second phase, each transfer is
    covered by the aggregator's balance when it is made, and the call
    succeeds. *)
Theorem rebalance_withdraws_before_deposits (s : State) (ds : list Z) :
  paused s = false →
  registry_ok s →
  this s ∉ pcvDepositAddresses s →
  getAllAmountsFromTargets s = Ok ds →
  ∃ s1 s2,
    _rebalance_withdraws ds s = Ok s1 ∧
    _rebalance_deposits ds s1 = Ok s2 ∧
    rebalance s = Ok s2 ∧
    calls s1 = calls s ++ withdrawals (this s) (pcvDepositAddresses s) ds ∧
    calls s2 = calls s1 ++ topups (pcvDepositAddresses s) ds ∧
    Forall (λ c, is_withdraw c = true)
      (withdrawals (this s) (pcvDepositAddresses s) ds) ∧
    Forall (λ c, is_withdraw c = false) (topups (pcvDepositAddresses s) ds) ∧
    total (shortfall <$> ds) ≤ balanceOf s1 (this s) ∧
    affordable (balanceOf s1 (this s)) (topups (pcvDepositAddresses s) ds) ∧
    affordable (balance s)
      (withdrawals (this s) (pcvDepositAddresses s) ds
       ++ topups (pcvDepositAddresses s) ds).
Proof.
  intros Hp Hok Hthis Hget.
  destruct (_rebalance_spec s ds Hok Hthis Hget)
    as (lg1 & lg2 & -> & Hw & Hd & Hr & [Hagg _] & _ & Hcover).
  eexists _, _. split; [exact Hw|]. split; [exact Hd|]. split.
  { unfold rebalance, whenNotPaused. rewrite Hp. exact Hr. }
  split; [done|]. split; [done|].
  split; [apply withdrawals_are_withdraws|].
  split; [apply topups_are_not_withdraws|].
  unfold balanceOf. simpl. rewrite <- list_fmap_compose.
  split; [done|]. split; [by apply affordable_topups|].
  apply affordable_withdrawals, affordable_topups.
  rewrite take_ge in Hagg by done. unfold balance, balanceOf. by rewrite <- Hagg.
Qed.

Lemma rebalance_withdraws_before_deposits_witness :
  ∃ s2, rebalance sample = Ok s2 ∧
    calls s2 = [DepositWithdraw 1 10 100;
                TokenTransfer 2 40; DepositDeposit 2;
                TokenTransfer 3 100; DepositDeposit 3].
Proof.
  destruct (rebalance_withdraws_before_deposits sample [-100; 40; 100]%Z)
    as (s1 & s2 & _ & _ & Hrun & Hc1 & Hc2 & _).
  - reflexivity.
  - split; [apply (bool_decide_unpack _); vm_compute; exact I|].
    vm_compute. reflexivity.
  - apply (bool_decide_unpack _). vm_compute. exact I.
  - vm_compute. reflexivity.
  - exists s2. split; [exact Hrun|]. rewrite Hc2, Hc1. reflexivity.
Defined.

(** ** Full rebalance: a second call *)

Lemma for_loop_id {St : Type} (body : nat → St → result St) (start n : nat) (s : St) :
  (∀ i, (start ≤ i < start + n)%nat → body i s = Ok s) →
  for_loop body start n s = Ok s.
Proof.
  revert start. induction n as [|n IH]; intros start H; simpl; [done|].
  rewrite H by lia. simpl. apply IH. intros i Hi. apply H. lia.
Qed.

Lemma _rebalance_withdraws_zero (ds : list Z) (s : State) :
  (∀ i d, ds !! i = Some d → d = 0%Z) → _rebalance_withdraws ds s = Ok s.
Proof.
  intros Hz. apply for_loop_id. intros i [_ Hi].
  destruct (lookup_lt_is_Some_2 ds i) as [d Hd]; [done|].
  rewrite (proj2 (idx_Ok _ _ _) Hd), (Hz i d Hd). reflexivity.
Qed.

Lemma _rebalance_deposits_zero (ds : list Z) (s : State) :
  (∀ i d, ds !! i = Some d → d = 0%Z) → _rebalance_deposits ds s = Ok s.
Proof.
  intros Hz. apply for_loop_id. intros i [_ Hi].
  destruct (lookup_lt_is_Some_2 ds i) as [d Hd]; [done|].
  rewrite (proj2 (idx_Ok _ _ _) Hd), (Hz i d Hd). reflexivity.
Qed.

(** After a full rebalance every deposit holds its ideal balance and the
    total is what it was. *)
Lemma _rebalance_balanced (s s1 : State) :
  registry_ok s →
  this s ∉ pcvDepositAddresses s →
  _rebalance s = Ok s1 →
  (∃ lg cs, s1 = with_ledger lg cs s) ∧
  totalBalance s1 = totalBalance s ∧
  totalBalance s ≤ MAX_UINT256 ∧
  ∀ a, a ∈ pcvDepositAddresses s →
       computable s a ∧ actualBalance s1 a = idealBalance s a.
Proof.
  intros Hok Hthis Hrun.
  assert (∃ ds, getAllAmountsFromTargets s = Ok ds) as [ds Hget].
  { unfold _rebalance in Hrun. apply bind_Ok in Hrun as ([[? ?] ?] & _ & H).
    apply bind_Ok in H as (t & _ & H). apply bind_Ok in H as (ds & Hds & _).
    by exists ds. }
  destruct (getAllAmountsFromTargets_distance s ds Hget) as (_ & Ht & Hcomp).
  destruct (_rebalance_spec s ds Hok Hthis Hget)
    as (lg1 & lg2 & -> & _ & _ & Hr & [Hagg1 Hdep1] & [Hagg2 Hdep2] & _).
  rewrite Hr in Hrun. injection Hrun as <-.
  rewrite take_ge in Hagg1, Hagg2 by done.
  assert (∀ a, a ∈ pcvDepositAddresses s → bal lg2 a = idealBalance s a) as Hbal.
  { intros a (j & Hj)%list_elem_of_lookup_1.
    pose proof (Hdep1 j a Hj) as H1. pose proof (Hdep2 j a Hj) as H2.
    apply lookup_lt_Some in Hj as Hlt.
    rewrite decide_True in H1, H2 by done. rewrite H2, H1.
    unfold excess, shortfall, distance, actualBalance, pcvBalance, balanceOf.
    lia. }
  split; [by eexists _, _|]. split; [|split; [done|]].
  - unfold totalBalance, underlyingBalancesOf, balance, actualBalance,
      pcvBalance, balanceOf. simpl.
    rewrite (total_fmap_ext (bal lg2) (idealBalance s)) by done.
    pose proof (total_fmap_add (shortfall ∘ distance s) (actualBalance s)
                  (pcvDepositAddresses s)) as H1.
    pose proof (total_fmap_add (excess ∘ distance s) (idealBalance s)
                  (pcvDepositAddresses s)) as H2.
    rewrite (total_fmap_ext _ (λ a, (excess ∘ distance s) a + idealBalance s a))
      in H1.
    2: { intros a _. apply shortfall_excess. }
    unfold actualBalance, pcvBalance, balanceOf in H1. lia.
  - intros a Ha. split; [by apply Hcomp|]. by apply Hbal.
Qed.

(** C5: on a contract that keeps the weight invariant, when a first
    [rebalance] has gone through, a second one right after it succeeds,
    makes no external call and leaves every balance as it is: it returns the
    state it was called in. *)
Theorem rebalance_twice (s s1 : State) :
  registry_ok s →
  this s ∉ pcvDepositAddresses s →
  rebalance s = Ok s1 →
  rebalance s1 = Ok s1.
Proof.
  intros Hok Hthis Hrun. unfold rebalance, whenNotPaused in *.
  destruct (paused s) eqn:Hp; [done|]. simpl in Hrun.
  destruct (_rebalance_balanced s s1 Hok Hthis Hrun)
    as ((lg & cs & ->) & Htot & Ht & Hbal).
  set (s1 := with_ledger lg cs s) in *.
  change (paused s1) with (paused s). rewrite Hp. simpl.
  assert (∀ a, a ∈ pcvDepositAddresses s → idealBalance s1 a = idealBalance s a)
    as Hideal.
  { intros a _. unfold idealBalance. by rewrite Htot. }
  assert (∀ a, a ∈ pcvDepositAddresses s → distance s1 a = 0%Z) as Hzero.
  { intros a Ha. unfold distance. rewrite (Hideal a Ha).
    destruct (Hbal a Ha) as [_ ->]. lia. }
  assert (getAllAmountsFromTargets s1 = Ok (distance s1 <$> pcvDepositAddresses s1))
    as Hget.
  { apply getAllAmountsFromTargets_Ok. rewrite Htot, length_fmap.
    split; [done|]. split; [done|]. intros i a Hi. split.
    - apply list_elem_of_lookup_2 in Hi as Ha.
      destruct (Hbal a Ha) as [(HW & Hmul & Hid & _) Hact].
      unfold computable. rewrite Htot, (Hideal a Ha), Hact. done.
    - by rewrite list_lookup_fmap, Hi. }
  assert (∀ i d, (distance s1 <$> pcvDepositAddresses s1) !! i = Some d → d = 0%Z)
    as Hall.
  { intros i d. rewrite list_lookup_fmap.
    destruct (pcvDepositAddresses s1 !! i) as [a|] eqn:Hi; [|done].
    intros [= <-]. apply Hzero. by eapply list_elem_of_lookup_2. }
  unfold _rebalance.
  assert (total (underlyingBalancesOf s1) ≤ MAX_UINT256) as Hu.
  { rewrite <- Htot in Ht. unfold totalBalance in Ht. lia. }
  rewrite (proj2 (_getUnderlyingBalancesAndSum_Ok s1 _) (conj eq_refl Hu)). simpl.
  assert (add (total (underlyingBalancesOf s1)) (balance s1) = Ok (totalBalance s1))
    as ->.
  { apply add_Ok. rewrite <- Htot in Ht. unfold totalBalance in *. lia. }
  simpl. rewrite Hget. simpl.
  change (pcvDepositAddresses s1) with (pcvDepositAddresses s) in Hall.
  rewrite (_rebalance_withdraws_zero _ s1 Hall). simpl.
  apply (_rebalance_deposits_zero _ s1 Hall).
Qed.

Lemma rebalance_twice_witness :
  ∃ s1, rebalance sample = Ok s1 ∧
        rebalance s1 = Ok s1 ∧
        balanceOf s1 1 = 100 ∧ balanceOf s1 2 = 100 ∧ balanceOf s1 3 = 200 ∧
        balanceOf s1 10 = 0.
Proof.
  eexists. split; [vm_compute; reflexivity|]. split.
  - apply (rebalance_twice sample).
    + split; [apply (bool_decide_unpack _); vm_compute; exact I|].
      vm_compute. reflexivity.
    + apply (bool_decide_unpack _). vm_compute. exact I.
    + vm_compute. reflexivity.
  - repeat split; reflexivity.
Defined.

(** * Further properties of the aggregator *)

(** ** Construction *)

Lemma for_loop_Ok_inv {St : Type} (I : nat → St → Prop)
    (body : nat → St → result St) (start n : nat) (s s' : St) :
  I start s →
  (∀ i st st', (start ≤ i < start + n)%nat → I i st → body i st = Ok st' →
               I (S i) st') →
  for_loop body start n s = Ok s' → I (start + n)%nat s'.
Proof.
  revert start s. induction n as [|n IH]; intros start s Hs Hbody; simpl.
  - intros [= <-]. by rewrite Nat.add_0_r.
  - intros (s1 & H1 & H)%bind_Ok.
    replace (start + S n)%nat with (S start + n)%nat by lia.
    eapply IH; [| |exact H].
    + eapply Hbody; [lia | done | done].
    + intros i st st' Hi. apply Hbody. lia.
Qed.

Lemma total_take_snoc (l : list N) (i : nat) (x : N) :
  l !! i = Some x → total (take (S i) l) = total (take i l) + x.
Proof. intros H. rewrite (take_S_r _ _ _ H), total_app. simpl. lia. Qed.


(** [_addPCVDeposit] goes through exactly for a fresh address whose weight
    fits, and then appends the address and adds the weight. *)
Lemma _addPCVDeposit_Ok (a : address) (w : N) (s s' : State) :
  _addPCVDeposit a w s = Ok s' ↔
  (a ∉ pcvDepositAddresses s) ∧
  totalWeight s + w ≤ MAX_UINT256 ∧
  s' = set_registry (pcvDepositAddresses s ++ [a])
         (<[a := w]> (pcvDepositWeights s)) (totalWeight s + w) s.
Proof.
  unfold _addPCVDeposit. split.
  - intros (_ & Hfresh%require_Ok & H)%bind_Ok.
    apply negb_true_iff, bool_decide_eq_false in Hfresh.
    apply bind_Ok in H as (tw & [-> Htw]%add_Ok & [= <-]).
    by rewrite add_fresh.
  - intros (Hfresh & Htw & ->). apply bind_Ok. exists tt. split.
    + apply require_Ok, negb_true_iff. by apply bool_decide_eq_false.
    + apply bind_Ok. eexists. split; [by apply add_Ok|].
      by rewrite add_fresh.
Qed.

Lemma constructed_step (this_ : address) (admins controllers : gset address)
    (ledger_ : gmap address N) (ram tok : address)
    (addrs : list address) (ws : list N) (bw : N) (i : nat) (st st' : State)
    (a : address) (w : N) :
  constructed this_ admins controllers ledger_ ram tok addrs ws bw i st →
  addrs !! i = Some a → ws !! i = Some w →
  _addPCVDeposit a w st = Ok st' →
  constructed this_ admins controllers ledger_ ram tok addrs ws bw (S i) st'.
Proof.
  intros (H1 & H2 & H3 & H4 & H5 & H6 & H7 & H8 & Haddrs & Hbw & Htw & Hnd
          & Hws & Hrest) Ha Hw Hadd.
  apply _addPCVDeposit_Ok in Hadd as (Hfresh & Hfit & ->).
  rewrite Haddrs in Hfresh.
  unfold constructed. simpl.
  rewrite (take_S_r _ _ _ Ha), (total_take_snoc _ _ _ Hw), Haddrs, Htw.
  repeat split; try done.
  - lia.
  - apply NoDup_app. split; [done|]. split; [|apply NoDup_singleton].
    intros x Hx ->%list_elem_of_singleton. done.
  - intros j b v Hj Hb Hv. rewrite weightOf_insert.
    destruct (decide (j = i)) as [->|Hne].
    + assert (b = a) as -> by congruence. assert (v = w) as -> by congruence.
      by rewrite decide_True.
    + rewrite decide_False.
      * apply (Hws j b v); [lia | done | done].
      * intros <-. apply Hfresh. apply list_elem_of_lookup. exists j.
        rewrite lookup_take_lt by lia. done.
  - intros b Hb. rewrite weightOf_insert.
    rewrite not_elem_of_app, list_elem_of_singleton in Hb. destruct Hb as [Hb Hne].
    rewrite decide_False by done. by apply Hrest.
Qed.

Lemma constructed_start (this_ : address) (admins controllers : gset address)
    (ledger_ : gmap address N) (ram tok : address)
    (addrs : list address) (ws : list N) (bw : N) :
  constructed this_ admins controllers ledger_ ram tok addrs ws bw 0
    (mkState this_ false admins controllers [] ∅ bw bw tok ram ledger_ []).
Proof.
  unfold constructed. simpl. repeat split; try done.
  - lia.
  - constructor.
  - intros j a w Hj. lia.
Qed.

(** What the constructor's checks and its loop establish. *)
Lemma constructor_constructed (this_ : address) (admins controllers : gset address)
    (ledger_ : gmap address N) (ram tok : address)
    (addrs : list address) (ws : list N) (bw : N) (s : State) :
  constructor this_ admins controllers ledger_ ram tok addrs ws bw = Ok s →
  length addrs = length ws ∧ ram ≠ 0 ∧
  constructed this_ (admins ∪ controllers) controllers ledger_ ram tok addrs
    ws bw (length addrs) s.
Proof.
  unfold constructor. intros (_ & _ & H)%bind_Ok.
  apply bind_Ok in H as (_ & Hlen%require_Ok & H).
  apply Nat.eqb_eq in Hlen.
  apply bind_Ok in H as (_ & Hram%require_Ok & H).
  apply negb_true_iff, N.eqb_neq in Hram.
  split; [done|]. split; [done|].
  apply (for_loop_Ok_inv
           (constructed this_ (admins ∪ controllers) controllers ledger_ ram
              tok addrs ws bw))
    in H; [done | apply constructed_start |].
  intros i st st' _ Hst (a & Ha%idx_Ok & Hb)%bind_Ok.
  apply bind_Ok in Hb as (w & Hw%idx_Ok & Hb).
  by eapply constructed_step.
Qed.

(** X1: what a successful construction has checked and built. The two
    arrays have the same length, the rewards asset manager is not the zero
    address and the initial deposits are pairwise distinct; the registry
    holds the deposits in the order given, each with its weight, every other
    address has weight 0, and [totalWeight] is the buffer weight plus the
    sum of the weights. No token has moved. *)
Theorem constructor_Ok_inv (this_ : address) (admins controllers : gset address)
    (ledger_ : gmap address N) (ram tok : address)
    (addrs : list address) (ws : list N) (bw : N) (s : State) :
  constructor this_ admins controllers ledger_ ram tok addrs ws bw = Ok s →
  length addrs = length ws ∧ ram ≠ 0 ∧ NoDup addrs ∧
  pcvDepositAddresses s = addrs ∧
  bufferWeight s = bw ∧
  totalWeight s = bw + total ws ∧
  (∀ i a w, addrs !! i = Some a → ws !! i = Some w → weightOf s a = w) ∧
  (∀ a, a ∉ addrs → weightOf s a = 0) ∧
  this s = this_ ∧ paused s = false ∧ ledger s = ledger_ ∧ calls s = [].
Proof.
  intros (Hlen & Hram & H)%constructor_constructed.
  destruct H as (H1 & H2 & H3 & H4 & H5 & H6 & H7 & H8 & Haddrs & Hbw & Htw
                 & Hnd & Hws & Hrest).
  rewrite take_ge in Haddrs, Hnd, Hrest by lia.
  rewrite take_ge in Htw by lia.
  repeat split; try done.
  intros i a w Ha Hw. apply (Hws i a w); [|done|done].
  by eapply lookup_lt_Some.
Qed.

Lemma constructor_Ok_inv_witness :
  pcvDepositAddresses deployed = [1; 2; 3] ∧
  totalWeight deployed = 0 + total [1; 1; 2] ∧
  weightOf deployed 3 = 2.
Proof.
  destruct (constructor_Ok_inv 10 {[7]} {[8]} sample_ledger 30 20
              [1; 2; 3] [1; 1; 2] 0 deployed)
    as (_ & _ & _ & Haddrs & _ & Htw & Hws & _).
  - vm_compute. reflexivity.
  - split; [exact Haddrs|]. split; [exact Htw|].
    apply (Hws 2%nat 3 2); reflexivity.
Defined.





(** ** Registering and unregistering *)

Lemma onlyGovernorOrAdmin_pass (sender : address) (s : State) :
  sender ∈ governorsOrAdmins s → onlyGovernorOrAdmin sender s = Ok tt.
Proof.
  intros H. unfold onlyGovernorOrAdmin. by rewrite bool_decide_eq_true_2.
Qed.

(** X3: for an authorised caller [addPCVDeposit] fails with
    [DuplicateDeposit] exactly when the deposit is already registered. When
    it goes through, the deposit is appended behind the registered ones
    (whose indices stay), it carries the given weight, no other weight
    changes, [totalWeight] grows by the weight, and no token moves. *)
Theorem addPCVDeposit_effect (sender a : address) (w : N) (s : State) :
  sender ∈ governorsOrAdmins s →
  (addPCVDeposit sender a w s = Revert DuplicateDeposit ↔
   a ∈ pcvDepositAddresses s) ∧
  (∀ s', addPCVDeposit sender a w s = Ok s' →
     pcvDepositAddresses s' = pcvDepositAddresses s ++ [a] ∧
     hasPCVDeposit s' a = true ∧
     weightOf s' a = w ∧
     (∀ b, b ≠ a → weightOf s' b = weightOf s b) ∧
     totalWeight s' = totalWeight s + w ∧
     bufferWeight s' = bufferWeight s ∧
     ledger s' = ledger s ∧ calls s' = calls s).
Proof.
  intros Hauth. unfold addPCVDeposit.
  rewrite (onlyGovernorOrAdmin_pass _ _ Hauth). simpl. split.
  - unfold _addPCVDeposit, EnumerableSet.contains.
    destruct (decide (a ∈ pcvDepositAddresses s)) as [Hin|Hout].
    + rewrite bool_decide_eq_true_2 by done. simpl. done.
    + rewrite bool_decide_eq_false_2 by done. simpl. split; [|done].
      intros H. revert_cases H; discriminate.
  - intros s' H. apply _addPCVDeposit_Ok in H as (Hfresh & Hfit & ->).
    simpl. split; [done|]. split.
    { apply contains_true. simpl. apply elem_of_app. right. by left. }
    split; [by rewrite weightOf_insert, decide_True|].
    split; [|done].
    intros b Hb. by rewrite weightOf_insert, decide_False.
Qed.

Lemma addPCVDeposit_effect_witness :
  addPCVDeposit 7 2 5 sample = Revert DuplicateDeposit ∧
  ∃ s', addPCVDeposit 7 5 6 sample = Ok s' ∧
        pcvDepositAddresses s' = [1; 2; 3; 5] ∧ totalWeight s' = 10.
Proof.
  assert (7 ∈ governorsOrAdmins sample) as Hauth
    by (apply (bool_decide_unpack _); vm_compute; exact I).
  split.
  - apply (proj1 (addPCVDeposit_effect 7 2 5 sample Hauth)).
    apply (bool_decide_unpack _). vm_compute. exact I.
  - eexists. split; [vm_compute; reflexivity|].
    destruct (proj2 (addPCVDeposit_effect 7 5 6 sample Hauth) _ eq_refl)
      as (Haddrs & _ & _ & _ & Htw & _).
    split; [exact Haddrs | exact Htw].
Defined.

Lemma sum_from_Revert (l : list N) (acc : N) (e : error) :
  UintArrayOps.sum_from acc l = Revert e → e = Panic 0x11.
Proof.
  revert acc. induction l as [|x l IH]; intros acc; simpl; [done|].
  intros [H | (acc' & _ & H)]%bind_Revert; [by apply add_Revert in H|].
  by eapply IH.
Qed.

Lemma toInt256_Revert (x : N) (e : error) : toInt256 x = Revert e → e = CastOverflow.
Proof. unfold toInt256. case_match; congruence. Qed.

Lemma toUint256_Revert (z : Z) (e : error) : toUint256 z = Revert e → e = CastOverflow.
Proof. unfold toUint256. case_match; congruence. Qed.

Lemma isub_Revert (a b : Z) (e : error) : isub a b = Revert e → e = Panic 0x11.
Proof. unfold isub. case_match; congruence. Qed.

Lemma iadd_Revert (a b : Z) (e : error) : iadd a b = Revert e → e = Panic 0x11.
Proof. unfold iadd. case_match; congruence. Qed.

Lemma imul_Revert (a b : Z) (e : error) : imul a b = Revert e → e = Panic 0x11.
Proof. unfold imul. case_match; congruence. Qed.

(** The distance view reverts only on arithmetic: a panic or a failed cast. *)
Lemma amountFromTarget_Revert (s : State) (a : address) (e : error) :
  amountFromTarget s a = Revert e →
  e = Panic 0x11 ∨ e = Panic 0x12 ∨ e = CastOverflow.
Proof.
  unfold amountFromTarget, getTotalBalance. rewrite _getUnderlyingBalances_eq.
  simpl. intros H.
  apply bind_Revert in H as [H | (t & _ & H)].
  { apply bind_Revert in H as [H | (u & _ & H)].
    - left. by apply sum_from_Revert in H.
    - left. by apply add_Revert in H. }
  apply bind_Revert in H as [H | (p & _ & H)]; [left; by apply mul_Revert in H|].
  apply bind_Revert in H as [H | (q & _ & H)];
    [right; left; by apply div_Revert in H|].
  apply bind_Revert in H as [H | (x & _ & H)];
    [right; right; by apply toInt256_Revert in H|].
  apply bind_Revert in H as [H | (y & _ & H)];
    [right; right; by apply toInt256_Revert in H|].
  left. by apply isub_Revert in H.
Qed.

(** The errors [_rebalanceSingle] can raise on a registered deposit. *)
Lemma _rebalanceSingle_Revert (id : address) (s : State) (e : error) :
  id ∈ pcvDepositAddresses s →
  _rebalanceSingle id s = Revert e →
  e = Panic 0x11 ∨ e = Panic 0x12 ∨ e = CastOverflow ∨
  e = NoRebalanceNeeded ∨ e = InsufficientAggregatorLiquidity ∨
  e = TransferExceedsBalance.
Proof.
  intros Hin. unfold _rebalanceSingle.
  rewrite (proj2 (contains_true _ _) Hin). simpl. intros H.
  apply bind_Revert in H as [H | (d & _ & H)].
  { apply amountFromTarget_Revert in H. tauto. }
  apply bind_Revert in H as [H | (_ & _ & H)].
  { apply require_Revert in H. tauto. }
  apply bind_Revert in H as [H | (_ & _ & H)].
  { destruct (d <? 0)%Z; [|done].
    apply bind_Revert in H as [H | (n & _ & H)];
      [apply imul_Revert in H; tauto|].
    apply bind_Revert in H as [H | (m & _ & H)];
      [apply toUint256_Revert in H; tauto|].
    apply require_Revert in H. tauto. }
  destruct (0 <? d)%Z.
  - apply bind_Revert in H as [H | (m & _ & H)];
      [apply toUint256_Revert in H; tauto|].
    apply pcvWithdraw_Revert in H. tauto.
  - apply bind_Revert in H as [H | (n & _ & H)];
      [apply imul_Revert in H; tauto|].
    apply bind_Revert in H as [H | (m & _ & H)];
      [apply toUint256_Revert in H; tauto|].
    apply bind_Revert in H as [H | (s1 & _ & H)]; [|done].
    apply safeTransfer_Revert in H. tauto.
Qed.

(** X4: for an authorised caller [removePCVDeposit] fails with
    [UnknownDeposit] exactly when the deposit is not registered. *)
Theorem removePCVDeposit_UnknownDeposit_iff (sender id : address) (s : State) :
  sender ∈ governorsOrAdmins s →
  removePCVDeposit sender id s = Revert UnknownDeposit ↔
  id ∉ pcvDepositAddresses s.
Proof.
  intros Hauth. unfold removePCVDeposit.
  rewrite (onlyGovernorOrAdmin_pass _ _ Hauth). simpl.
  unfold _removePCVDeposit, EnumerableSet.contains.
  destruct (decide (id ∈ pcvDepositAddresses s)) as [Hin|Hout].
  - rewrite bool_decide_eq_true_2 by done. simpl. split; [|done].
    intros H. exfalso.
    destruct ((weightOf s id =? 0) && (pcvBalance s id =? 0)); [done|].
    apply bind_Revert in H as [H | (tw & _ & H)]; [by apply sub_Revert in H|].
    apply bind_Revert in H as [H | (s2 & _ & H)]; [|done].
    apply _rebalanceSingle_Revert in H; [|done].
    destruct H as [H|[H|[H|[H|[H|H]]]]]; discriminate H.
  - rewrite bool_decide_eq_false_2 by done. simpl. done.
Qed.

Lemma removePCVDeposit_UnknownDeposit_iff_witness :
  removePCVDeposit 7 5 sample = Revert UnknownDeposit.
Proof.
  apply removePCVDeposit_UnknownDeposit_iff.
  - apply (bool_decide_unpack _). vm_compute. exact I.
  - apply (bool_decide_unpack _). vm_compute. exact I.
Defined.

(** X5: a registered deposit that carries a weight but holds nothing cannot
    be removed. The removal zeroes its weight and forces a single rebalance,
    which finds the deposit on target and reverts, or fails earlier on the
    arithmetic; by no path does the call go through. *)
Theorem removePCVDeposit_empty_weighted_reverts (sender id : address) (s : State) :
  id ∈ pcvDepositAddresses s →
  weightOf s id ≠ 0 →
  actualBalance s id = 0 →
  (∀ s', removePCVDeposit sender id s ≠ Ok s') ∧
  (sender ∈ governorsOrAdmins s →
   weightOf s id < totalWeight s →
   totalBalance s ≤ MAX_UINT256 →
   removePCVDeposit sender id s = Revert NoRebalanceNeeded).
Proof.
  intros Hin Hw Hb.
  set (s1 := set_registry (pcvDepositAddresses s)
               (<[id := 0]> (pcvDepositWeights s))
               (totalWeight s - weightOf s id) s).
  assert (weightOf s1 id = 0) as Hw1.
  { unfold s1. rewrite weightOf_insert. by rewrite decide_True. }
  assert (idealBalance s1 id = 0) as Hideal.
  { unfold idealBalance. rewrite Hw1, N.mul_0_r. apply N.Div0.div_0_l. }
  assert (distance s1 id = 0%Z) as Hd.
  { unfold distance. rewrite Hideal.
    change (actualBalance s1 id) with (actualBalance s id). by rewrite Hb. }
  split.
  - intros s' H. unfold removePCVDeposit in H.
    apply bind_Ok in H as (_ & _ & H). unfold _removePCVDeposit in H.
    apply bind_Ok in H as (_ & _ & H).
    replace (weightOf s id =? 0) with false in H
      by (symmetry; by apply N.eqb_neq).
    simpl in H. apply bind_Ok in H as (tw & [-> Hle]%sub_Ok & H).
    apply bind_Ok in H as (s2 & Hreb & _). fold s1 in Hreb.
    unfold _rebalanceSingle in Hreb.
    apply bind_Ok in Hreb as (_ & _ & Hreb).
    apply bind_Ok in Hreb as (d & Hdist & Hreb).
    apply amountFromTarget_Ok in Hdist as (_ & _ & ->).
    rewrite Hd in Hreb. simpl in Hreb. done.
  - intros Hauth Hlt Ht. unfold removePCVDeposit.
    rewrite (onlyGovernorOrAdmin_pass _ _ Hauth). simpl.
    unfold _removePCVDeposit.
    rewrite (proj2 (contains_true _ _) Hin). simpl.
    replace (weightOf s id =? 0) with false by (symmetry; by apply N.eqb_neq).
    simpl.
    rewrite (proj2 (sub_Ok _ _ _) (conj eq_refl (N.lt_le_incl _ _ Hlt))). simpl.
    fold s1. rewrite (_rebalanceSingle_eq s1 id); [|done|done|].
    + by rewrite Hd.
    + repeat split.
      * simpl. lia.
      * rewrite Hw1. lia.
      * rewrite Hideal. pose proof int256_bounds. lia.
      * change (actualBalance s1 id) with (actualBalance s id).
        rewrite Hb. pose proof int256_bounds. lia.
Qed.

Lemma removePCVDeposit_empty_weighted_reverts_witness :
  removePCVDeposit 7 2 funded = Revert NoRebalanceNeeded.
Proof.
  destruct (removePCVDeposit_empty_weighted_reverts 7 2 funded) as [_ H].
  - apply (bool_decide_unpack _). vm_compute. exact I.
  - discriminate.
  - reflexivity.
  - apply H.
    + apply (bool_decide_unpack _). vm_compute. exact I.
    + reflexivity.
    + apply N.leb_le. vm_compute. reflexivity.
Defined.

Lemma remove_last (set : list address) (a : address) :
  a ∉ set → EnumerableSet.remove (set ++ [a]) a = set.
Proof.
  intros Hout. unfold EnumerableSet.remove.
  assert (list_find (λ x, x = a) (set ++ [a]) = Some (length set, a)) as ->.
  { apply list_find_Some. split; [|split; [done|]].
    - rewrite lookup_app_r by lia. by rewrite Nat.sub_diag.
    - intros j y Hj Hlt ->. apply Hout. apply list_elem_of_lookup. exists j.
      by rewrite lookup_app_l in Hj. }
  rewrite length_app. simpl.
  replace (length set + 1 - 1)%nat with (length set) by lia.
  rewrite lookup_app_r by lia. rewrite Nat.sub_diag. simpl.
  rewrite take_insert_ge by lia. by rewrite take_app_length.
Qed.

(** X6: removing a registered deposit whose weight and balance are both zero
    takes the short cut. The call reads the deposit's balance and otherwise
    issues no withdrawal, no deposit and no token transfer: the trace of
    state-changing calls and every token balance stay as they were. No
    weight and neither total changes, and the registry loses exactly that
    deposit. *)
Theorem removePCVDeposit_short_circuit (sender id : address) (s : State) :
  sender ∈ governorsOrAdmins s →
  NoDup (pcvDepositAddresses s) →
  id ∈ pcvDepositAddresses s →
  weightOf s id = 0 →
  actualBalance s id = 0 →
  ∃ s', removePCVDeposit sender id s = Ok s' ∧
    hasPCVDeposit s' id = false ∧
    (∀ x, x ∈ pcvDepositAddresses s' ↔ x ∈ pcvDepositAddresses s ∧ x ≠ id) ∧
    pcvDepositWeights s' = pcvDepositWeights s ∧
    totalWeight s' = totalWeight s ∧
    bufferWeight s' = bufferWeight s ∧
    ledger s' = ledger s ∧ calls s' = calls s.
Proof.
  intros Hauth Hnd Hin Hw Hb. unfold removePCVDeposit.
  rewrite (onlyGovernorOrAdmin_pass _ _ Hauth). simpl.
  unfold _removePCVDeposit. rewrite (proj2 (contains_true _ _) Hin). simpl.
  unfold actualBalance in Hb. rewrite Hw, Hb. simpl.
  eexists. split; [reflexivity|]. simpl.
  destruct (remove_NoDup _ id Hnd Hin) as [_ Hnotin].
  split; [by apply bool_decide_eq_false|].
  split; [intros x; by apply elem_of_remove | done].
Qed.

(** X7: registering a fresh, empty deposit with weight zero and removing it
    again is a round trip: the registry, both totals, the ledger and the
    trace are what they were, and so is every weight. *)
Theorem addPCVDeposit_removePCVDeposit (sender a : address) (s : State) :
  sender ∈ governorsOrAdmins s →
  a ∉ pcvDepositAddresses s →
  actualBalance s a = 0 →
  totalWeight s ≤ MAX_UINT256 →
  ∃ s1 s2,
    addPCVDeposit sender a 0 s = Ok s1 ∧
    removePCVDeposit sender a s1 = Ok s2 ∧
    pcvDepositAddresses s2 = pcvDepositAddresses s ∧
    totalWeight s2 = totalWeight s ∧
    bufferWeight s2 = bufferWeight s ∧
    (∀ b, b ≠ a → weightOf s2 b = weightOf s b) ∧
    weightOf s2 a = 0 ∧
    ledger s2 = ledger s ∧ calls s2 = calls s.
Proof.
  intros Hauth Hout Hb Hfit.
  assert (addPCVDeposit sender a 0 s =
          Ok (set_registry (pcvDepositAddresses s ++ [a])
                (<[a := 0]> (pcvDepositWeights s)) (totalWeight s + 0) s))
    as Hadd.
  { unfold addPCVDeposit. rewrite (onlyGovernorOrAdmin_pass _ _ Hauth). simpl.
    apply _addPCVDeposit_Ok. split; [done|]. split; [lia | done]. }
  eexists _, _. split; [exact Hadd|].
  unfold removePCVDeposit, onlyGovernorOrAdmin. simpl.
  rewrite bool_decide_eq_true_2 by done. simpl.
  unfold _removePCVDeposit. simpl.
  rewrite (proj2 (contains_true _ _)).
  2: { apply elem_of_app. right. by left. }
  simpl. rewrite weightOf_insert, decide_True by done.
  change (pcvBalance (set_registry _ _ _ s) a) with (actualBalance s a).
  rewrite Hb. simpl. split; [reflexivity|]. simpl.
  rewrite remove_last by done. split; [done|]. split; [lia|].
  split; [done|]. split.
  { intros b Hne. unfold weightOf. simpl. by rewrite lookup_insert_ne. }
  split; [|done]. unfold weightOf. simpl. by rewrite lookup_insert_eq.
Qed.

Lemma addPCVDeposit_removePCVDeposit_witness :
  ∃ s1 s2,
    addPCVDeposit 7 5 0 sample = Ok s1 ∧
    removePCVDeposit 7 5 s1 = Ok s2 ∧
    pcvDepositAddresses s2 = [1; 2; 3] ∧ totalWeight s2 = 4.
Proof.
  destruct (addPCVDeposit_removePCVDeposit 7 5 sample)
    as (s1 & s2 & H1 & H2 & Haddrs & Htw & _).
  - apply (bool_decide_unpack _). vm_compute. exact I.
  - apply (bool_decide_unpack _). vm_compute. exact I.
  - reflexivity.
  - apply N.leb_le. vm_compute. reflexivity.
  - exists s1, s2. split; [exact H1|]. split; [exact H2|].
    split; [exact Haddrs | exact Htw].
Defined.

(** ** Changing weights *)

(** X8: for an authorised caller [setPCVDepositWeight] fails with
    [UnknownDeposit] exactly when the deposit is not registered, and with
    [CastOverflow] when the deposit is registered and the new weight exceeds
    the largest [int256]. When it goes through, the deposit has the new
    weight, no other weight changes, [totalWeight] moves by the signed
    difference, and neither the registry list, the buffer weight nor any
    balance changes. *)
Theorem setPCVDepositWeight_effect (sender a : address) (w : N) (s : State) :
  sender ∈ governorsOrAdmins s →
  (setPCVDepositWeight sender a w s = Revert UnknownDeposit ↔
   a ∉ pcvDepositAddresses s) ∧
  (a ∈ pcvDepositAddresses s → (MAX_INT256 < Z.of_N w)%Z →
   setPCVDepositWeight sender a w s = Revert CastOverflow) ∧
  (∀ s', setPCVDepositWeight sender a w s = Ok s' →
     weightOf s' a = w ∧
     (∀ b, b ≠ a → weightOf s' b = weightOf s b) ∧
     totalWeight s' + weightOf s a = totalWeight s + w ∧
     pcvDepositAddresses s' = pcvDepositAddresses s ∧
     bufferWeight s' = bufferWeight s ∧
     ledger s' = ledger s ∧ calls s' = calls s).
Proof.
  intros Hauth. unfold setPCVDepositWeight.
  rewrite (onlyGovernorOrAdmin_pass _ _ Hauth). simpl.
  unfold EnumerableSet.contains. split; [|split].
  - destruct (decide (a ∈ pcvDepositAddresses s)) as [Hin|Hout].
    + rewrite bool_decide_eq_true_2 by done. simpl. split; [|done].
      intros H. exfalso.
      apply bind_Revert in H as [H | (? & _ & H)];
        [by apply toInt256_Revert in H|].
      apply bind_Revert in H as [H | (? & _ & H)];
        [by apply toInt256_Revert in H|].
      apply bind_Revert in H as [H | (? & _ & H)];
        [by apply isub_Revert in H|].
      apply bind_Revert in H as [H | (? & _ & H)];
        [by apply toInt256_Revert in H|].
      apply bind_Revert in H as [H | (? & _ & H)];
        [by apply iadd_Revert in H|].
      apply bind_Revert in H as [H | (? & _ & H)];
        [by apply toUint256_Revert in H | done].
    + rewrite bool_decide_eq_false_2 by done. simpl. done.
  - intros Hin Hbig. rewrite bool_decide_eq_true_2 by done. simpl.
    assert (toInt256 w = Revert CastOverflow) as ->; [|done].
    unfold toInt256.
    replace (Z.of_N w <=? MAX_INT256)%Z with false
      by (symmetry; by apply Z.leb_gt).
    reflexivity.
  - intros s' (_ & _ & H)%bind_Ok.
    apply bind_Ok in H as (new & [-> _]%toInt256_Ok & H).
    apply bind_Ok in H as (old & [-> _]%toInt256_Ok & H).
    apply bind_Ok in H as (diff & [-> _]%isub_Ok & H).
    apply bind_Ok in H as (tot & [-> _]%toInt256_Ok & H).
    apply bind_Ok in H as (sh & [-> _]%iadd_Ok & H).
    apply bind_Ok in H as (tw & [-> Hpos]%toUint256_Ok & [= <-]).
    simpl. split; [by rewrite weightOf_insert, decide_True|].
    split; [|split; [lia | done]].
    intros b Hb. by rewrite weightOf_insert, decide_False.
Qed.

Lemma setPCVDepositWeight_effect_witness :
  setPCVDepositWeight 7 5 9 sample = Revert UnknownDeposit ∧
  ∃ s', setPCVDepositWeight 7 3 9 sample = Ok s' ∧
        weightOf s' 3 = 9 ∧ totalWeight s' + 2 = 4 + 9.
Proof.
  assert (7 ∈ governorsOrAdmins sample) as Hauth
    by (apply (bool_decide_unpack _); vm_compute; exact I).
  split.
  - apply (proj1 (setPCVDepositWeight_effect 7 5 9 sample Hauth)).
    apply (bool_decide_unpack _). vm_compute. exact I.
  - eexists. split; [vm_compute; reflexivity|].
    destruct (proj2 (proj2 (setPCVDepositWeight_effect 7 3 9 sample Hauth))
                _ eq_refl) as (Hw & _ & Htw & _).
    split; [exact Hw | exact Htw].
Defined.

(** X9: for an authorised caller [setBufferWeight] goes through exactly when
    the new weight, the old one and [totalWeight] each fit an [int256], the
    old buffer weight does not exceed [totalWeight] plus the new one, and the
    new total fits an [int256]. It then stores the new buffer weight, moves
    [totalWeight] by the signed difference, and changes no deposit's weight
    and no balance. *)
Theorem setBufferWeight_effect (sender : address) (w : N) (s : State) :
  sender ∈ governorsOrAdmins s →
  ((∃ s', setBufferWeight sender w s = Ok s') ↔
   (Z.of_N w ≤ MAX_INT256)%Z ∧
   (Z.of_N (bufferWeight s) ≤ MAX_INT256)%Z ∧
   (Z.of_N (totalWeight s) ≤ MAX_INT256)%Z ∧
   (0 ≤ Z.of_N (totalWeight s) + (Z.of_N w - Z.of_N (bufferWeight s))
      ≤ MAX_INT256)%Z) ∧
  (∀ s', setBufferWeight sender w s = Ok s' →
     bufferWeight s' = w ∧
     totalWeight s' + bufferWeight s = totalWeight s + w ∧
     pcvDepositAddresses s' = pcvDepositAddresses s ∧
     pcvDepositWeights s' = pcvDepositWeights s ∧
     ledger s' = ledger s ∧ calls s' = calls s).
Proof.
  intros Hauth. unfold setBufferWeight.
  rewrite (onlyGovernorOrAdmin_pass _ _ Hauth). simpl. split; [split|].
  - intros [s' H].
    apply bind_Ok in H as (new & [-> Hn]%toInt256_Ok & H).
    apply bind_Ok in H as (old & [-> Ho]%toInt256_Ok & H).
    apply bind_Ok in H as (diff & [-> _]%isub_Ok & H).
    apply bind_Ok in H as (tot & [-> Ht]%toInt256_Ok & H).
    apply bind_Ok in H as (sh & [-> Hs]%iadd_Ok & H).
    apply bind_Ok in H as (tw & [-> Hpos]%toUint256_Ok & _).
    repeat split; try done; lia.
  - intros (Hn & Ho & Ht & Hlo & Hhi). pose proof int256_bounds as [Hmin Hmax].
    eexists. apply bind_Ok. eexists. split; [by apply toInt256_Ok|].
    apply bind_Ok. eexists. split; [by apply toInt256_Ok|].
    apply bind_Ok. eexists. split; [apply isub_Ok; split; [done | lia]|].
    apply bind_Ok. eexists. split; [by apply toInt256_Ok|].
    apply bind_Ok. eexists. split; [apply iadd_Ok; split; [done | lia]|].
    apply bind_Ok. eexists. split; [by apply toUint256_Ok | done].
  - intros s' H.
    apply bind_Ok in H as (new & [-> Hn]%toInt256_Ok & H).
    apply bind_Ok in H as (old & [-> Ho]%toInt256_Ok & H).
    apply bind_Ok in H as (diff & [-> _]%isub_Ok & H).
    apply bind_Ok in H as (tot & [-> Ht]%toInt256_Ok & H).
    apply bind_Ok in H as (sh & [-> Hs]%iadd_Ok & H).
    apply bind_Ok in H as (tw & [-> Hpos]%toUint256_Ok & [= <-]).
    simpl. split; [done|]. split; [lia | done].
Qed.

Lemma setBufferWeight_effect_witness :
  ∃ s', setBufferWeight 7 6 sample = Ok s' ∧
        bufferWeight s' = 6 ∧ totalWeight s' + 0 = 4 + 6.
Proof.
  assert (7 ∈ governorsOrAdmins sample) as Hauth
    by (apply (bool_decide_unpack _); vm_compute; exact I).
  eexists. split; [vm_compute; reflexivity|].
  destruct (proj2 (setBufferWeight_effect 7 6 sample Hauth) _ eq_refl)
    as (Hb & Htw & _).
  split; [exact Hb | exact Htw].
Defined.

Lemma removePCVDeposit_short_circuit_witness :
  ∃ s', removePCVDeposit 7 5 with_spare = Ok s' ∧
        hasPCVDeposit s' 5 = false ∧
        totalWeight s' = 4 ∧ calls s' = [].
Proof.
  destruct (removePCVDeposit_short_circuit 7 5 with_spare)
    as (s' & Hrun & Hgone & _ & _ & Htw & _ & _ & Hcalls).
  - apply (bool_decide_unpack _). vm_compute. exact I.
  - apply (bool_decide_unpack _). vm_compute. exact I.
  - apply (bool_decide_unpack _). vm_compute. exact I.
  - reflexivity.
  - reflexivity.
  - exists s'. split; [exact Hrun|]. split; [exact Hgone|].
    split; [exact Htw | exact Hcalls].
Defined.

(** ** The registry view *)

(** X10: [pcvDeposits] never reverts. It returns the registered deposits in
    registry order and, index by index, their weights; on a contract that
    keeps the weight invariant the returned weights and the buffer weight
    add up to [totalWeight]. *)
Theorem pcvDeposits_reports_registry (s : State) :
  ∃ weights,
    pcvDeposits s = Ok (pcvDepositAddresses s, weights) ∧
    length weights = length (pcvDepositAddresses s) ∧
    (∀ i a, pcvDepositAddresses s !! i = Some a →
            weights !! i = Some (weightOf s a)) ∧
    (weight_invariant s → totalWeight s = bufferWeight s + total weights).
Proof.
  exists (weightOf s <$> pcvDepositAddresses s). split; [|split; [|split]].
  - unfold pcvDeposits.
    assert (tabulate (λ i, EnumerableSet.at_ (pcvDepositAddresses s) i)
              (length (pcvDepositAddresses s)) = Ok (pcvDepositAddresses s))
      as ->.
    { apply tabulate_Ok. split; [done|]. intros i x Hx. by apply at_Ok. }
    simpl.
    assert (tabulate
              (λ i, a ← EnumerableSet.at_ (pcvDepositAddresses s) i;
                    Ok (weightOf s a))
              (length (pcvDepositAddresses s)) =
            Ok (weightOf s <$> pcvDepositAddresses s)) as ->; [|done].
    apply tabulate_Ok. rewrite length_fmap. split; [done|]. intros i x.
    rewrite list_lookup_fmap.
    destruct (pcvDepositAddresses s !! i) as [a|] eqn:Ha; [|done].
    intros [= <-]. apply at_Ok in Ha. by rewrite Ha.
  - by rewrite length_fmap.
  - intros i a Ha. by rewrite list_lookup_fmap, Ha.
  - done.
Qed.

Lemma pcvDeposits_reports_registry_witness :
  pcvDeposits sample = Ok ([1; 2; 3], [1; 1; 2]) ∧
  totalWeight sample = bufferWeight sample + total [1; 1; 2].
Proof.
  destruct (pcvDeposits_reports_registry sample) as (ws & Hrun & _ & _ & Hsum).
  assert (ws = [1; 1; 2]) as ->.
  { assert (pcvDeposits sample = Ok ([1; 2; 3], [1; 1; 2])) as H
      by (vm_compute; reflexivity).
    rewrite H in Hrun. by injection Hrun. }
  split; [exact Hrun|]. apply Hsum. vm_compute. reflexivity.
Defined.

(** ** Errors of the single rebalance *)

(** X11: on an unpaused contract [rebalanceSingle] fails with
    [UnknownDeposit] exactly when the deposit is not registered. *)
Theorem rebalanceSingle_UnknownDeposit_iff (id : address) (s : State) :
  paused s = false →
  rebalanceSingle id s = Revert UnknownDeposit ↔ id ∉ pcvDepositAddresses s.
Proof.
  intros Hp. rewrite rebalanceSingle_unpaused by done.
  destruct (decide (id ∈ pcvDepositAddresses s)) as [Hin|Hout].
  - split; [|done]. intros H. exfalso.
    apply _rebalanceSingle_Revert in H; [|done].
    destruct H as [H|[H|[H|[H|[H|H]]]]]; discriminate H.
  - split; [done|]. intros _. unfold _rebalanceSingle, EnumerableSet.contains.
    by rewrite bool_decide_eq_false_2.
Qed.

Lemma rebalanceSingle_UnknownDeposit_iff_witness :
  rebalanceSingle 5 sample = Revert UnknownDeposit.
Proof.
  apply rebalanceSingle_UnknownDeposit_iff.
  - reflexivity.
  - apply (bool_decide_unpack _). vm_compute. exact I.
Defined.

(** ** The top-up *)

(** X12: [deposit()] moves nothing. On an unpaused contract whose optimal
    aggregator balance is computable, it returns exactly when the idle
    balance does not exceed that optimum, equality included, and whenever it
    returns the state is the one it was called in. *)
Theorem deposit_returns_iff (s : State) :
  paused s = false →
  totalBalance s ≤ MAX_UINT256 →
  bufferWeight s * totalBalance s ≤ MAX_UINT256 →
  totalWeight s ≠ 0 →
  (deposit s = Ok s ↔ balance s ≤ optimalAggregatorBalance s) ∧
  (∀ s', deposit s = Ok s' → s' = s ∧ balance s ≤ optimalAggregatorBalance s).
Proof.
  intros Hp Ht Hm HW.
  assert (balance s ≤ optimalAggregatorBalance s → deposit s = Ok s) as Hnoop.
  { intros Hle. unfold deposit, whenNotPaused. rewrite Hp. simpl.
    unfold _getUnderlyingBalancesAndSum. rewrite _getUnderlyingBalances_eq.
    simpl.
    rewrite (proj2 (sum_Ok _ _)
               (conj eq_refl (N.le_trans _ _ _ (N.le_add_l _ _) Ht))).
    simpl.
    replace (add (total (underlyingBalancesOf s)) (balance s))
      with (Ok (totalBalance s)).
    2: { symmetry. apply add_Ok. unfold totalBalance in *. lia. }
    simpl. rewrite (proj2 (mul_Ok _ _ _) (conj eq_refl Hm)). simpl.
    rewrite (proj2 (div_Ok _ _ _) (conj eq_refl HW)). simpl.
    fold (optimalAggregatorBalance s).
    by replace (balance s <=? optimalAggregatorBalance s) with true
      by (symmetry; by apply N.leb_le). }
  assert (∀ s', deposit s = Ok s' → balance s ≤ optimalAggregatorBalance s)
    as Hle.
  { intros s' H. unfold deposit in H. apply bind_Ok in H as (_ & _ & H).
    apply bind_Ok in H as (r & Hr & H).
    apply _getUnderlyingBalancesAndSum_Ok in Hr as [-> Hu]. simpl in H.
    apply bind_Ok in H as (t & [-> _]%add_Ok & H).
    apply bind_Ok in H as (p & [-> _]%mul_Ok & H).
    apply bind_Ok in H as (q & [-> _]%div_Ok & H).
    replace (total (underlyingBalancesOf s) + balance s)
      with (totalBalance s) in H by (unfold totalBalance; lia).
    fold (optimalAggregatorBalance s) in H.
    destruct (N.leb_spec (balance s) (optimalAggregatorBalance s))
      as [Hle|Hgt]; [done|].
    apply bind_Ok in H as (d & [_ Hd]%sub_Ok & _). lia. }
  split; [split; [apply Hle | apply Hnoop]|].
  intros s' H. split; [by apply deposit_Ok_unchanged | by eapply Hle].
Qed.

Lemma deposit_returns_iff_witness :
  balance balanced = 0 ∧ optimalAggregatorBalance balanced = 0 ∧
  deposit balanced = Ok balanced.
Proof.
  split; [reflexivity|]. split; [reflexivity|].
  apply deposit_returns_iff.
  - reflexivity.
  - apply N.leb_le. vm_compute. reflexivity.
  - apply N.leb_le. vm_compute. reflexivity.
  - discriminate.
  - apply N.leb_le. vm_compute. reflexivity.
Defined.

(** ** A contract without weights *)

Lemma total_fmap_zero (f : address → N) (l : list address) (a : address) :
  total (f <$> l) = 0 → a ∈ l → f a = 0.
Proof.
  induction l as [|x l IH]; csimpl; intros Hz Hin.
  - by apply elem_of_nil in Hin.
  - apply elem_of_cons in Hin as [->|Hin]; [lia|]. apply IH; [lia | done].
Qed.

Lemma tabulate_first_Revert {A : Type} (f : nat → result A) (n : nat) (e : error) :
  f 0%nat = Revert e → tabulate f (S n) = Revert e.
Proof.
  intros H. unfold tabulate. change (seq 0 (S n)) with (0%nat :: seq 1 n).
  rewrite mapM_cons, H. reflexivity.
Qed.

(** X13: when [totalWeight] is zero on a contract that keeps the weight
    invariant, every path that computes a share divides by zero:
    [deposit()] reverts with Panic(0x12), and so do [rebalanceSingle] of any
    registered deposit and, as soon as one deposit is registered,
    [getAllAmountsFromTargets] and [rebalance]. With no deposit registered
    [rebalance] returns without doing anything. *)
Theorem zero_totalWeight (s : State) :
  paused s = false →
  weight_invariant s →
  totalWeight s = 0 →
  totalBalance s ≤ MAX_UINT256 →
  deposit s = Revert (Panic 0x12) ∧
  (∀ id, id ∈ pcvDepositAddresses s →
         rebalanceSingle id s = Revert (Panic 0x12)) ∧
  (pcvDepositAddresses s ≠ [] →
   getAllAmountsFromTargets s = Revert (Panic 0x12) ∧
   rebalance s = Revert (Panic 0x12)) ∧
  (pcvDepositAddresses s = [] → rebalance s = Ok s).
Proof.
  intros Hp Hinv HW Ht. unfold weight_invariant in Hinv.
  assert (bufferWeight s = 0) as Hbw by lia.
  assert (∀ a, a ∈ pcvDepositAddresses s → weightOf s a = 0) as Hws.
  { intros a Ha. apply (total_fmap_zero _ (pcvDepositAddresses s)); [lia|done]. }
  assert (total (underlyingBalancesOf s) ≤ MAX_UINT256) as Hu
    by (unfold totalBalance in Ht; lia).
  assert (add (total (underlyingBalancesOf s)) (balance s) = Ok (totalBalance s))
    as Hadd.
  { apply add_Ok. unfold totalBalance in *. lia. }
  assert (add (balance s) (total (underlyingBalancesOf s)) = Ok (totalBalance s))
    as Hadd'.
  { apply add_Ok. unfold totalBalance in *. lia. }
  assert (∀ x, div x (totalWeight s) = Revert (Panic 0x12)) as Hdiv.
  { intros x. unfold div. by rewrite HW. }
  assert (pcvDepositAddresses s ≠ [] →
          getAllAmountsFromTargets s = Revert (Panic 0x12)) as Hget.
  { intros Hne. unfold getAllAmountsFromTargets.
    rewrite (proj2 (_getUnderlyingBalancesAndSum_Ok s _) (conj eq_refl Hu)).
    simpl. rewrite Hadd'. simpl.
    destruct (pcvDepositAddresses s) as [|a l] eqn:Hl; [done|].
    apply tabulate_first_Revert. simpl.
    rewrite (Hws a) by (by left). unfold mul. rewrite N.mul_0_r.
    simpl. by rewrite Hdiv. }
  split; [|split; [|split]].
  - unfold deposit, whenNotPaused. rewrite Hp. simpl.
    rewrite (proj2 (_getUnderlyingBalancesAndSum_Ok s _) (conj eq_refl Hu)).
    simpl. rewrite Hadd. simpl. rewrite Hbw. unfold mul. simpl.
    by rewrite Hdiv.
  - intros id Hin. rewrite rebalanceSingle_unpaused by done.
    unfold _rebalanceSingle. rewrite (proj2 (contains_true _ _) Hin). simpl.
    unfold amountFromTarget.
    rewrite (proj2 (getTotalBalance_Ok s _) (conj eq_refl Ht)). simpl.
    rewrite (Hws id Hin). unfold mul. simpl. by rewrite Hdiv.
  - intros Hne. split; [by apply Hget|].
    unfold rebalance, whenNotPaused. rewrite Hp. simpl. unfold _rebalance.
    rewrite (proj2 (_getUnderlyingBalancesAndSum_Ok s _) (conj eq_refl Hu)).
    simpl. rewrite Hadd. simpl. by rewrite Hget.
  - intros Hnil. unfold rebalance, whenNotPaused. rewrite Hp. simpl.
    unfold _rebalance.
    rewrite (proj2 (_getUnderlyingBalancesAndSum_Ok s _) (conj eq_refl Hu)).
    simpl. rewrite Hadd. simpl.
    unfold getAllAmountsFromTargets.
    rewrite (proj2 (_getUnderlyingBalancesAndSum_Ok s _) (conj eq_refl Hu)).
    simpl. rewrite Hadd'. simpl. rewrite Hnil. reflexivity.
Qed.

Lemma zero_totalWeight_witness :
  deposit weightless = Revert (Panic 0x12) ∧
  rebalanceSingle 1 weightless = Revert (Panic 0x12) ∧
  rebalance weightless = Revert (Panic 0x12).
Proof.
  destruct (zero_totalWeight weightless) as (Hd & Hs & Hr & _).
  - reflexivity.
  - vm_compute. reflexivity.
  - reflexivity.
  - apply N.leb_le. vm_compute. reflexivity.
  - split; [exact Hd|]. split.
    + apply Hs. apply (bool_decide_unpack _). vm_compute. exact I.
    + apply Hr. discriminate.
Defined.

(** ** Where a full rebalance ends *)




(** ** Where a single rebalance ends *)





(** ** Withdrawals *)

Lemma onlyPCVController_pass (sender : address) (s : State) :
  sender ∈ pcvControllers s → onlyPCVController sender s = Ok tt.
Proof.
  intros H. unfold onlyPCVController. by rewrite bool_decide_eq_true_2.
Qed.



Lemma total_fmap_le (f g : address → N) (l : list address) :
  (∀ a, a ∈ l → f a ≤ g a) → total (f <$> l) ≤ total (g <$> l).
Proof.
  induction l as [|x l IH]; intros H; csimpl; [lia|].
  pose proof (H x ltac:(by left)).
  assert (total (f <$> l) ≤ total (g <$> l)); [|lia].
  apply IH. intros a Ha. apply H. by right.
Qed.

(** The pulling loop of [withdraw] never reverts; it takes every deposit
    above its post-withdrawal ideal down to it. *)
Lemma withdraw_pulls_spec (s : State) (amount : N) :
  NoDup (pcvDepositAddresses s) →
  this s ∉ pcvDepositAddresses s →
  ∃ lg1,
    for_loop
      (λ i st,
        pcvDepositAddress ← EnumerableSet.at_ (pcvDepositAddresses st) i;
        actualPcvDepositBalance ← idx (underlyingBalancesOf s) i;
        idealPcvDepositBalance ←
          idx (idealPostWithdraw s amount <$> pcvDepositAddresses s) i;
        if idealPcvDepositBalance <? actualPcvDepositBalance then
          amountToWithdraw ← sub actualPcvDepositBalance idealPcvDepositBalance;
          pcvWithdraw pcvDepositAddress (this st) amountToWithdraw st
        else Ok st)
      0 (length (pcvDepositAddresses s)) s =
    Ok (with_ledger lg1
          (calls s ++ withdrawals (this s) (pcvDepositAddresses s)
                        (distancePostWithdraw s amount <$> pcvDepositAddresses s))
          s) ∧
    pulled (this s) (pcvDepositAddresses s) (distancePostWithdraw s amount)
      (ledger s) (length (pcvDepositAddresses s)) lg1 ∧
    untouched (this s) (pcvDepositAddresses s) (ledger s) lg1.
Proof.
  intros Hnd Hthis.
  set (l := pcvDepositAddresses s) in *.
  set (dist := distancePostWithdraw s amount).
  set (ds := dist <$> l).
  edestruct (for_loop_inv
    (λ i st, ∃ lg,
       st = with_ledger lg
              (calls s ++ withdrawals (this s) (take i l) (take i ds)) s ∧
       pulled (this s) l dist (ledger s) i lg ∧
       untouched (this s) l (ledger s) lg))
    as (s' & Hrun & lg & -> & Hp & Hu); [| |rewrite Hrun].
  - exists (ledger s). split; [|split; [apply pulled_start | by intros x]].
    simpl. by rewrite app_nil_r, with_ledger_id.
  - intros i st [_ Hi] (lg & -> & Hp & Hu). simpl in Hi.
    destruct (lookup_lt_is_Some_2 l i) as [a Ha]; [done|].
    assert (ds !! i = Some (dist a)) as Hd.
    { unfold ds. by rewrite list_lookup_fmap, Ha. }
    assert (a ∈ l) as Hin by (by eapply list_elem_of_lookup_2).
    simpl. fold l. rewrite (proj2 (at_Ok _ _ _) Ha). simpl.
    rewrite (proj2 (idx_Ok _ _ _) (lookup_underlyingBalancesOf s i a Ha)).
    simpl.
    assert ((idealPostWithdraw s amount <$> l) !! i
            = Some (idealPostWithdraw s amount a)) as Hideal.
    { by rewrite list_lookup_fmap, Ha. }
    rewrite (proj2 (idx_Ok _ _ _) Hideal). simpl.
    rewrite (withdrawals_take_S _ _ _ _ _ _ Ha Hd).
    destruct (N.ltb_spec (idealPostWithdraw s amount a) (actualBalance s a))
      as [Hover|Hunder].
    + replace (dist a <? 0)%Z with true.
      2: { symmetry. apply Z.ltb_lt. unfold dist, distancePostWithdraw. lia. }
      assert (sub (actualBalance s a) (idealPostWithdraw s amount a)
              = Ok (excess (dist a))) as ->.
      { apply sub_Ok. split; [|lia].
        unfold excess, dist, distancePostWithdraw. lia. }
      simpl.
      destruct (pulled_step (this s) l dist Hnd Hthis (ledger s) lg i a Hp Ha)
        as (lg' & Hmove & Hp').
      { unfold excess, dist, distancePostWithdraw, actualBalance, pcvBalance,
          balanceOf. lia. }
      unfold pcvWithdraw. simpl. rewrite Hmove. simpl.
      eexists. split; [reflexivity|]. exists lg'.
      split; [|split; [done|]].
      * unfold set_ledger. simpl. by rewrite <- app_assoc.
      * intros x Hx1 Hx2.
        assert (a ≠ this s) as Hne by (by intros ->).
        rewrite (move_bal _ _ _ _ _ _ Hmove Hne).
        rewrite decide_False by (by intros ->).
        rewrite decide_False by done. by apply Hu.
    + replace (dist a <? 0)%Z with false.
      2: { symmetry. apply Z.ltb_ge. unfold dist, distancePostWithdraw. lia. }
      eexists. split; [reflexivity|]. exists lg.
      split; [by rewrite app_nil_r|]. split; [|done].
      eapply pulled_skip; try done.
      unfold excess, dist, distancePostWithdraw. lia.
  - exists lg. rewrite Nat.add_0_l in Hp.
    split; [|done]. simpl.
    rewrite (take_ge l), (take_ge ds); try done.
    unfold ds. by rewrite length_fmap.
Qed.

(** X17: a withdrawal to a recipient that is neither the aggregator nor a
    registered deposit, which the idle balance does not strictly cover but
    the total balance does, on an unpaused contract whose registered
    deposits are pairwise distinct, that keeps the weight invariant, is not
    registered as its own deposit, whose total balance fits a [uint256] and
    whose post-withdrawal shares are computable, goes through when a PCV
    controller calls it. It first pulls every deposit that holds more than
    its post-withdrawal ideal down to that ideal, in registry order, and
    leaves the other deposits alone; then it pays the recipient in one
    transfer. The recipient receives the amount and the total balance drops
    by exactly the amount. *)
Theorem withdraw_from_deposits (sender to : address) (amount : N) (s : State) :
  sender ∈ pcvControllers s →
  paused s = false →
  registry_ok s →
  this s ∉ pcvDepositAddresses s →
  to ≠ this s →
  to ∉ pcvDepositAddresses s →
  balance s ≤ amount →
  amount ≤ totalBalance s →
  totalBalance s ≤ MAX_UINT256 →
  (∀ a, a ∈ pcvDepositAddresses s →
        totalWeight s ≠ 0 ∧
        underlyingAfterWithdraw s amount * weightOf s a ≤ MAX_UINT256) →
  ∃ s', withdraw sender to amount s = Ok s' ∧
    calls s' =
      calls s
      ++ withdrawals (this s) (pcvDepositAddresses s)
           (distancePostWithdraw s amount <$> pcvDepositAddresses s)
      ++ [TokenTransfer to amount] ∧
    (∀ a, a ∈ pcvDepositAddresses s →
          actualBalance s' a =
          N.min (actualBalance s a) (idealPostWithdraw s amount a)) ∧
    balanceOf s' to = balanceOf s to + amount ∧
    totalBalance s' + amount = totalBalance s.
Proof.
  intros Hc Hp [Hnd Hinv] Hthis Hto Hto' Hslow Hle Ht Hcomp.
  set (l := pcvDepositAddresses s) in *.
  set (dist := distancePostWithdraw s amount).
  assert (total (underlyingBalancesOf s) ≤ MAX_UINT256) as Hu
    by (unfold totalBalance in Ht; lia).
  unfold withdraw. rewrite (onlyPCVController_pass _ _ Hc). simpl.
  unfold whenNotPaused. rewrite Hp. simpl.
  replace (amount <? balance s) with false by (symmetry; by apply N.ltb_ge).
  rewrite _getUnderlyingBalances_eq. simpl.
  rewrite (proj2 (sum_Ok _ _) (conj eq_refl Hu)). simpl.
  assert (add (total (underlyingBalancesOf s)) (balance s) = Ok (totalBalance s))
    as ->.
  { apply add_Ok. unfold totalBalance in *. lia. }
  simpl. replace (amount <=? totalBalance s) with true
    by (symmetry; by apply N.leb_le).
  simpl. rewrite (proj2 (sub_Ok _ _ _) (conj eq_refl Hslow)). simpl.
  assert (sub (total (underlyingBalancesOf s)) (amount - balance s)
          = Ok (underlyingAfterWithdraw s amount)) as ->.
  { apply sub_Ok. split; [done|]. unfold totalBalance in Hle. lia. }
  simpl. fold l.
  assert (tabulate
            (λ i, a ← EnumerableSet.at_ l i;
                  product ← mul (underlyingAfterWithdraw s amount) (weightOf s a);
                  div product (totalWeight s))
            (length l) = Ok (idealPostWithdraw s amount <$> l)) as ->.
  { apply tabulate_Ok. rewrite length_fmap. split; [done|]. intros i x.
    rewrite list_lookup_fmap. destruct (l !! i) as [a|] eqn:Ha; [|done].
    intros [= <-]. rewrite (proj2 (at_Ok _ _ _) Ha). simpl.
    destruct (Hcomp a) as [HW Hmul]; [by eapply list_elem_of_lookup_2|].
    rewrite (proj2 (mul_Ok _ _ _) (conj eq_refl Hmul)). simpl.
    by apply div_Ok. }
  simpl.
  destruct (withdraw_pulls_spec s amount Hnd Hthis)
    as (lg1 & Hloop & [Hagg Hdep] & Hout).
  fold l dist in Hloop, Hagg, Hdep, Hout. rewrite Hloop. simpl.
  rewrite take_ge in Hagg by done.
  (* what the deposits held splits into what stays and what is pulled *)
  assert (∀ a, a ∈ l → bal lg1 a
             = N.min (actualBalance s a) (idealPostWithdraw s amount a)) as Hmin.
  { intros a (j & Hj)%list_elem_of_lookup_1. rewrite (Hdep j a Hj).
    apply lookup_lt_Some in Hj. rewrite decide_True by done.
    unfold excess, dist, distancePostWithdraw, actualBalance, pcvBalance,
      balanceOf. lia. }
  assert (total (actualBalance s <$> l)
          = total (bal lg1 <$> l) + total ((excess ∘ dist) <$> l)) as Hsplit.
  { rewrite <- total_fmap_add. apply total_fmap_ext. intros a Ha.
    rewrite (Hmin a Ha). simpl.
    unfold excess, dist, distancePostWithdraw. lia. }
  (* the shares left in the deposits do not exceed the underlying total
     after the withdrawal *)
  assert (total (bal lg1 <$> l) ≤ underlyingAfterWithdraw s amount) as Hleft.
  { etrans; [apply (total_fmap_le _ (idealPostWithdraw s amount))|].
    { intros a Ha. rewrite (Hmin a Ha). lia. }
    destruct l as [|a0 l0] eqn:Hl; [simpl; lia|].
    destruct (Hcomp a0) as [HW _]; [by left|].
    pose proof (total_shares_le (underlyingAfterWithdraw s amount)
                  (totalWeight s) (weightOf s) (a0 :: l0) HW) as Hsh.
    change (λ a, underlyingAfterWithdraw s amount * weightOf s a / totalWeight s)
      with (idealPostWithdraw s amount) in Hsh.
    unfold weight_invariant in Hinv. fold l in Hinv. rewrite Hl in Hinv. nia. }
  assert (amount ≤ bal lg1 (this s)) as Hpay.
  { rewrite Hagg. unfold totalBalance, underlyingBalancesOf in Hle.
    fold l in Hle. unfold underlyingAfterWithdraw, underlyingBalancesOf in Hleft.
    fold l in Hleft. unfold balance, balanceOf in *. lia. }
  destruct (move_fits (this s) to amount lg1 Hpay) as [lg2 Hmove].
  unfold safeTransfer. simpl. rewrite Hmove. simpl.
  eexists. split; [reflexivity|]. simpl.
  split; [by rewrite <- app_assoc|].
  assert (∀ a, a ∈ l → bal lg2 a = bal lg1 a) as Hsame.
  { intros a Ha. rewrite (move_bal _ _ _ _ _ _ Hmove (not_eq_sym Hto)).
    rewrite decide_False by (by intros ->).
    by rewrite decide_False by (by intros ->). }
  split; [|split].
  - intros a Ha. unfold actualBalance at 1, pcvBalance, balanceOf. simpl.
    rewrite (Hsame a Ha). by apply Hmin.
  - unfold balanceOf. simpl.
    rewrite (move_bal _ _ _ _ _ _ Hmove (not_eq_sym Hto)).
    rewrite decide_False by done. rewrite decide_True by done.
    by rewrite (Hout to Hto' Hto).
  - unfold totalBalance, underlyingBalancesOf.
    change (pcvDepositAddresses (set_ledger lg2 _ _)) with l.
    change (actualBalance (set_ledger lg2 _ _)) with (bal lg2).
    change (balance (set_ledger lg2 _ _)) with (bal lg2 (this s)).
    fold l. rewrite (total_fmap_ext (bal lg2) (bal lg1)) by done.
    rewrite (move_bal _ _ _ _ _ _ Hmove (not_eq_sym Hto)).
    rewrite decide_True by done.
    unfold balance, balanceOf in *. lia.
Qed.

Lemma withdraw_from_deposits_witness :
  ∃ s', withdraw 8 99 100 sample = Ok s' ∧
        balanceOf s' 99 = 100 ∧
        totalBalance s' + 100 = totalBalance sample ∧
        actualBalance s' 1 = N.min 200 (idealPostWithdraw sample 100 1).
Proof.
  destruct (withdraw_from_deposits 8 99 100 sample)
    as (s' & Hrun & _ & Hdep & Hto & Htot).
  - apply (bool_decide_unpack _). vm_compute. exact I.
  - reflexivity.
  - split; [apply (bool_decide_unpack _); vm_compute; exact I|].
    vm_compute. reflexivity.
  - apply (bool_decide_unpack _). vm_compute. exact I.
  - discriminate.
  - apply (bool_decide_unpack _). vm_compute. exact I.
  - apply N.leb_le. vm_compute. reflexivity.
  - apply N.leb_le. vm_compute. reflexivity.
  - apply N.leb_le. vm_compute. reflexivity.
  - intros a Ha. split; [discriminate|]. change (a ∈ [1; 2; 3]) in Ha.
    repeat (apply elem_of_cons in Ha as [->|Ha];
            [apply N.leb_le; vm_compute; reflexivity|]).
    by apply elem_of_nil in Ha.
  - exists s'. split; [exact Hrun|]. split; [exact Hto|]. split; [exact Htot|].
    apply (Hdep 1). apply (bool_decide_unpack _). vm_compute. exact I.
Defined.

(** ** What moving funds leaves alone *)

Lemma keeps_registry_refl (s : State) : keeps_registry s s.
Proof. exists (ledger s), (calls s). by rewrite with_ledger_id. Qed.

Lemma pcvWithdraw_keeps (s st st' : State) (dep to : address) (amount : N) :
  keeps_registry s st → pcvWithdraw dep to amount st = Ok st' →
  keeps_registry s st'.
Proof.
  intros (lg & cs & ->) (l & _ & [= <-])%bind_Ok. by eexists _, _.
Qed.

Lemma safeTransfer_keeps (s st st' : State) (to : address) (amount : N) :
  keeps_registry s st → safeTransfer to amount st = Ok st' →
  keeps_registry s st'.
Proof.
  intros (lg & cs & ->) (l & _ & [= <-])%bind_Ok. by eexists _, _.
Qed.

Lemma pcvDeposit_keeps (s st st' : State) (dep : address) :
  keeps_registry s st → pcvDeposit dep st = Ok st' → keeps_registry s st'.
Proof. intros (lg & cs & ->) [= <-]. by eexists _, _. Qed.

Lemma _rebalance_keeps (s s' : State) :
  _rebalance s = Ok s' → keeps_registry s s'.
Proof.
  unfold _rebalance. intros ([[agg und] ubs] & _ & H)%bind_Ok.
  apply bind_Ok in H as (t & _ & H). apply bind_Ok in H as (ds & _ & H).
  apply bind_Ok in H as (s1 & H1 & H2).
  assert (keeps_registry s s1) as Hs1.
  { eapply (for_loop_preserves (keeps_registry s)); [|apply keeps_registry_refl|exact H1].
    intros i st st' Hst (d & _ & Hb)%bind_Ok.
    destruct (d <? 0)%Z; [|by injection Hb as <-].
    apply bind_Ok in Hb as (a & _ & Hb). apply bind_Ok in Hb as (neg & _ & Hb).
    apply bind_Ok in Hb as (m & _ & Hb). by eapply pcvWithdraw_keeps. }
  eapply (for_loop_preserves (keeps_registry s)); [|exact Hs1|exact H2].
  intros i st st' Hst (d & _ & Hb)%bind_Ok.
  destruct (0 <? d)%Z; [|by injection Hb as <-].
  apply bind_Ok in Hb as (a & _ & Hb). apply bind_Ok in Hb as (m & _ & Hb).
  apply bind_Ok in Hb as (st1 & Ht1 & Hb). apply bind_Ok in Hb as (a' & _ & Hb).
  eapply pcvDeposit_keeps; [|exact Hb]. by eapply safeTransfer_keeps.
Qed.

(** X18: whatever the state, none of the fund-moving calls, [rebalance],
    [rebalanceSingle], [deposit] and [withdraw], changes the registry: the
    registered deposits and their order, every weight, the buffer weight
    and [totalWeight] are after the call what they were before. *)
Theorem fund_moves_keep_registry (s s' : State) :
  (rebalance s = Ok s' ∨
   (∃ id, rebalanceSingle id s = Ok s') ∨
   deposit s = Ok s' ∨
   (∃ sender to amount, withdraw sender to amount s = Ok s')) →
  pcvDepositAddresses s' = pcvDepositAddresses s ∧
  pcvDepositWeights s' = pcvDepositWeights s ∧
  bufferWeight s' = bufferWeight s ∧
  totalWeight s' = totalWeight s.
Proof.
  intros H. assert (keeps_registry s s') as (lg & cs & ->); [|done].
  destruct H as [H|[[id H]|[H|(sender & to & amount & H)]]].
  - unfold rebalance in H. apply bind_Ok in H as (_ & _ & H).
    by apply _rebalance_keeps.
  - unfold rebalanceSingle in H. apply bind_Ok in H as (_ & _ & H).
    apply _rebalanceSingle_registry in H as Hreg.
    unfold _rebalanceSingle in H. apply bind_Ok in H as (_ & _ & H).
    apply bind_Ok in H as (d & _ & H). apply bind_Ok in H as (_ & _ & H).
    apply bind_Ok in H as (_ & _ & H).
    destruct (0 <? d)%Z.
    + apply bind_Ok in H as (m & _ & H).
      eapply pcvWithdraw_keeps; [apply keeps_registry_refl | exact H].
    + apply bind_Ok in H as (neg & _ & H). apply bind_Ok in H as (m & _ & H).
      apply bind_Ok in H as (s1 & H1 & H).
      eapply pcvDeposit_keeps; [|exact H].
      eapply safeTransfer_keeps; [apply keeps_registry_refl | exact H1].
  - apply deposit_Ok_unchanged in H as ->. apply keeps_registry_refl.
  - unfold withdraw in H. apply bind_Ok in H as (_ & _ & H).
    apply bind_Ok in H as (_ & _ & H).
    destruct (amount <? balance s).
    { eapply safeTransfer_keeps; [apply keeps_registry_refl | exact H]. }
    apply bind_Ok in H as (ub & _ & H). apply bind_Ok in H as (tu & _ & H).
    apply bind_Ok in H as (tb & _ & H). apply bind_Ok in H as (_ & _ & H).
    apply bind_Ok in H as (need & _ & H). apply bind_Ok in H as (after & _ & H).
    apply bind_Ok in H as (ideals & _ & H). apply bind_Ok in H as (s1 & H1 & H).
    eapply safeTransfer_keeps; [|exact H].
    eapply (for_loop_preserves (keeps_registry s));
      [|apply keeps_registry_refl|exact H1].
    intros i st st' Hst (a & _ & Hb)%bind_Ok.
    apply bind_Ok in Hb as (x & _ & Hb). apply bind_Ok in Hb as (y & _ & Hb).
    destruct (y <? x); [|by injection Hb as <-].
    apply bind_Ok in Hb as (m & _ & Hb). by eapply pcvWithdraw_keeps.
Qed.

Lemma fund_moves_keep_registry_witness :
  ∃ s', rebalance sample = Ok s' ∧
        pcvDepositAddresses s' = [1; 2; 3] ∧ totalWeight s' = 4.
Proof.
  eexists. split; [vm_compute; reflexivity|].
  edestruct (fund_moves_keep_registry sample) as (Ha & _ & _ & Ht).
  - left. vm_compute. reflexivity.
  - split; [exact Ha | exact Ht].
Defined.

(** ** Weights of unregistered addresses *)

Lemma mutate_no_stale_weight (sender : address) (m : mutator) (s s' : State) :
  NoDup (pcvDepositAddresses s) → no_stale_weight s →
  mutate sender m s = Ok s' → no_stale_weight s'.
Proof.
  intros Hnd Hs. destruct m as [a w|a|a w|w]; simpl.
  - intros (_ & _ & H)%bind_Ok.
    apply _addPCVDeposit_Ok in H as (Hfresh & _ & ->).
    intros b Hb. simpl in Hb. rewrite weightOf_insert.
    rewrite not_elem_of_app, list_elem_of_singleton in Hb.
    destruct Hb as [Hb Hne]. rewrite decide_False by done. by apply Hs.
  - intros (_ & _ & H)%bind_Ok. unfold _removePCVDeposit in H.
    apply bind_Ok in H as (_ & Hin%require_Ok & H). apply contains_true in Hin.
    destruct ((weightOf s a =? 0) && (pcvBalance s a =? 0)) eqn:Hshort.
    + injection H as <-. apply andb_true_iff in Hshort as [Hw%N.eqb_eq _].
      intros b Hb. simpl in Hb.
      change (weightOf (set_registry _ (pcvDepositWeights s) _ s) b)
        with (weightOf s b).
      destruct (decide (b = a)) as [->|Hne]; [done|]. apply Hs.
      intros Hb'. apply Hb. by apply elem_of_remove.
    + apply bind_Ok in H as (tw & _ & H).
      apply bind_Ok in H as (s2 & Hreb & [= <-]).
      apply _rebalanceSingle_registry in Hreb as (Ha & Hws & _ & _).
      simpl in Ha, Hws. intros b Hb. simpl in Hb. rewrite Ha in Hb.
      unfold weightOf. simpl. rewrite Hws, lookup_insert.
      destruct (decide (a = b)) as [->|Hne]; [done|].
      apply Hs. intros Hb'. apply Hb. by apply elem_of_remove.
  - intros (_ & _ & H)%bind_Ok.
    apply bind_Ok in H as (_ & Hin%require_Ok & H). apply contains_true in Hin.
    apply bind_Ok in H as (? & _ & H). apply bind_Ok in H as (? & _ & H).
    apply bind_Ok in H as (? & _ & H). apply bind_Ok in H as (? & _ & H).
    apply bind_Ok in H as (? & _ & H). apply bind_Ok in H as (? & _ & [= <-]).
    intros b Hb. simpl in Hb. rewrite weightOf_insert.
    rewrite decide_False by (by intros ->). by apply Hs.
  - intros (_ & _ & H)%bind_Ok.
    apply bind_Ok in H as (? & _ & H). apply bind_Ok in H as (? & _ & H).
    apply bind_Ok in H as (? & _ & H). apply bind_Ok in H as (? & _ & H).
    apply bind_Ok in H as (? & _ & H). apply bind_Ok in H as (? & _ & [= <-]).
    intros b Hb. by apply Hs.
Qed.

Lemma run_no_stale_weight (txs : list (address * mutator)) (s : State) :
  registry_ok s → no_stale_weight s →
  registry_ok (run txs s) ∧ no_stale_weight (run txs s).
Proof.
  revert s. induction txs as [|[sender m] txs IH]; intros s Hok Hs; simpl;
    [done|].
  destruct (mutate sender m s) as [s'|e] eqn:Hm; apply IH; try done.
  - by eapply mutate_registry_ok.
  - eapply mutate_no_stale_weight; [apply Hok | done | done].
Qed.

(** X19: no weight lingers outside the registry. On a constructed contract,
    after any sequence of [addPCVDeposit], [removePCVDeposit],
    [setPCVDepositWeight] and [setBufferWeight] transactions, every address
    that is not registered has weight zero, and the registered deposits are
    pairwise distinct. *)
Theorem unregistered_weight_zero
    (this_ : address) (admins controllers : gset address)
    (ledger_ : gmap address N) (ram tok : address)
    (addrs : list address) (ws : list N) (bw : N) (s : State)
    (txs : list (address * mutator)) :
  constructor this_ admins controllers ledger_ ram tok addrs ws bw = Ok s →
  NoDup (pcvDepositAddresses (run txs s)) ∧
  ∀ a, a ∉ pcvDepositAddresses (run txs s) → weightOf (run txs s) a = 0.
Proof.
  intros Hc.
  pose proof (constructor_registry_ok _ _ _ _ _ _ _ _ _ _ Hc) as Hok.
  destruct (constructor_constructed _ _ _ _ _ _ _ _ _ _ Hc)
    as (_ & _ & _ & _ & _ & _ & _ & _ & _ & _ & Haddrs & _ & _ & _ & _ & Hrest).
  destruct (run_no_stale_weight txs s Hok) as [[Hnd _] Hstale].
  { intros a Ha. apply Hrest. by rewrite <- Haddrs. }
  done.
Qed.

Lemma unregistered_weight_zero_witness :
  let s := run [(7, RemovePCVDeposit 1); (7, SetBufferWeight 4)] deployed in
  (1 ∉ pcvDepositAddresses s) ∧ weightOf s 1 = 0.
Proof.
  simpl.
  destruct (unregistered_weight_zero 10 {[7]} {[8]} sample_ledger 30 20
              [1; 2; 3] [1; 1; 2] 0 deployed
              [(7, RemovePCVDeposit 1); (7, SetBufferWeight 4)])
    as [_ Hstale].
  - vm_compute. reflexivity.
  - assert (1 ∉ pcvDepositAddresses
              (run [(7, RemovePCVDeposit 1); (7, SetBufferWeight 4)] deployed))
      as Hout by (apply (bool_decide_unpack _); vm_compute; exact I).
    split; [exact Hout | exact (Hstale 1 Hout)].
Defined.
